(** * The shape-morphing animation core of the Christmas-tree scene

    A shallow embedding of [utils/math.ts] and of the per-frame and
    per-commit logic of the components [Foliage], [MagicSpiral],
    [Ornaments], [StarTop], [GingerbreadMan] and [Experience].

    JavaScript numbers are read as real numbers (rounding, overflow and
    signed zeros are not modelled); the one place where the code divides
    by a possibly zero denominator, [normalize], returns a [JS.number]
    with the IEEE special values written out. *)

From Stdlib Require Import Reals Lra Lia List ZArith Bool.
Import ListNotations.
Open Scope R_scope.

(* ================================================================= *)
(** ** The host language: numbers, [Math], the random source *)

Module JS.

(** The result of a floating division: a finite number or one of the
    three IEEE special values. *)
Inductive number : Type :=
| Fin (r : R)
| PosInf
| NegInf
| NaN.

(** [a / b] for finite [a] and [b], a zero [b] being the positive zero
    (a difference [m - m] is [+0]). *)
Definition div (a b : R) : number :=
  if Req_dec_T b 0 then
    match total_order_T a 0 with
    | inleft (left _) => NegInf
    | inleft (right _) => NaN
    | inright _ => PosInf
    end
  else Fin (a / b).

(** [isNaN]. *)
Definition isNaN (v : number) : bool :=
  match v with NaN => true | _ => false end.

(** [Number.isFinite]. *)
Definition isFinite (v : number) : bool :=
  match v with Fin _ => true | _ => false end.

End JS.

Module Math.

(** [Math.cbrt]: the real cube root. *)
Definition cbrt (x : R) : R :=
  match total_order_T x 0 with
  | inleft (left _) => - Rpower (- x) (/ 3)
  | inleft (right _) => 0
  | inright _ => Rpower x (/ 3)
  end.

Definition min (a b : R) : R := Rmin a b.
Definition abs (a : R) : R := Rabs a.

End Math.

(** [Math.random()] draws from a source that is threaded through the
    generators: the stream of draws and the position of the next one. *)
Record RandomSource : Type := mkRandomSource {
  draws : nat -> R;
  cursor : nat
}.

Definition random (g : RandomSource) : R * RandomSource :=
  (draws g (cursor g), mkRandomSource (draws g) (S (cursor g))).

(** Every draw of [Math.random()] lies in [0, 1). *)
Definition unit_draws (g : RandomSource) : Prop :=
  forall n, 0 <= draws g n < 1.

(** A source that yields the same value at every draw. *)
Definition constant_source (c : R) : RandomSource :=
  mkRandomSource (fun _ => c) 0.

(* ================================================================= *)
(** ** three.js vectors *)

Module THREE.

Record Vector3 : Type := mkVector3 { x : R; y : R; z : R }.

(** [v.length()] *)
Definition length (v : Vector3) : R :=
  sqrt (x v * x v + y v * y v + z v * z v).

(** [v.multiplyScalar(s)] *)
Definition multiplyScalar (s : R) (v : Vector3) : Vector3 :=
  mkVector3 (x v * s) (y v * s) (z v * s).

(** [v.divideScalar(s)] is [v.multiplyScalar(1 / s)]. *)
Definition divideScalar (s : R) (v : Vector3) : Vector3 :=
  multiplyScalar (1 / s) v.

(** [v.normalize()] is [v.divideScalar(v.length() || 1)]. *)
Definition normalize (v : Vector3) : Vector3 :=
  divideScalar (if Req_dec_T (length v) 0 then 1 else length v) v.

(** [v.setLength(l)] is [v.normalize().multiplyScalar(l)]. *)
Definition setLength (l : R) (v : Vector3) : Vector3 :=
  multiplyScalar l (normalize v).

(** [v.add(w)] *)
Definition add (v w : Vector3) : Vector3 :=
  mkVector3 (x v + x w) (y v + y w) (z v + z w).

(** [new Vector3().lerpVectors(v1, v2, alpha)] *)
Definition lerpVectors (v1 v2 : Vector3) (alpha : R) : Vector3 :=
  mkVector3 (x v1 + (x v2 - x v1) * alpha)
            (y v1 + (y v2 - y v1) * alpha)
            (z v1 + (z v2 - z v1) * alpha).

(** [THREE.MathUtils.lerp(a, b, t)] *)
Definition lerp (a b t : R) : R := (1 - t) * a + t * b.

(** GLSL [mix(a, b, t)] on scalars and on [vec3]. *)
Definition mix (a b t : R) : R := a * (1 - t) + b * t.

Definition mix3 (a b : Vector3) (t : R) : Vector3 :=
  mkVector3 (mix (x a) (x b) t) (mix (y a) (y b) t) (mix (z a) (z b) t).

End THREE.

Import THREE.

(* ================================================================= *)
(** ** [types.ts] *)

Inductive TreeState : Type := SCATTERED | TREE_SHAPE.

Definition TreeState_eqb (a b : TreeState) : bool :=
  match a, b with
  | SCATTERED, SCATTERED | TREE_SHAPE, TREE_SHAPE => true
  | _, _ => false
  end.

(* ================================================================= *)
(** ** [utils/math.ts] *)

(** [getRandomSpherePoint(radius)]: three draws, in the order [u], [v]
    and the one under the cube root. *)
Definition getRandomSpherePoint (radius : R) (g : RandomSource)
  : Vector3 * RandomSource :=
  let (u, g1) := random g in
  let (v, g2) := random g1 in
  let theta := 2 * PI * u in
  let phi := acos (2 * v - 1) in
  let (w, g3) := random g2 in
  let r := Math.cbrt w * radius in
  let sinPhi := sin phi in
  let x := r * sinPhi * cos theta in
  let y := r * sinPhi * sin theta in
  let z := r * cos phi in
  (mkVector3 x y z, g3).

(** [getTreeSpiralPoint(t, maxRadius, height, spirals, jitter)]. *)
Definition getTreeSpiralPoint (t maxRadius height spirals jitter : R)
  (g : RandomSource) : Vector3 * RandomSource :=
  let y := (t - 0.5) * height in
  let currentRadius := maxRadius * (1 - t) in
  let angle := t * PI * 2 * spirals in
  let x := cos angle * currentRadius in
  let z := sin angle * currentRadius in
  let (rx, g1) := random g in
  let randX := (rx - 0.5) * jitter in
  let (ry, g2) := random g1 in
  let randY := (ry - 0.5) * jitter in
  let (rz, g3) := random g2 in
  let randZ := (rz - 0.5) * jitter in
  (mkVector3 (x + randX) (y + randY) (z + randZ), g3).

(** How a call ends: it hands a value back, or it throws. *)
Inductive Completion (A : Type) : Type :=
| Normal (v : A)
| Throw.

Arguments Normal {A} v.
Arguments Throw {A}.

(** [normalize(val, max, min)]: the body is the bare quotient, with no
    test of the denominator and no [throw], so every call completes
    normally. *)
Definition normalize (val max min : R) : Completion JS.number :=
  Normal (JS.div (val - min) (max - min)).

(** A call is rejected with a domain error when it throws or, in the
    weaker reading, when what it returns is [NaN]. *)
Definition domain_error (c : Completion JS.number) : Prop :=
  c = Throw \/ c = Normal JS.NaN.

(** The point of the ideal helix at height [t]. *)
Definition helix (t maxRadius height spirals : R) : Vector3 :=
  mkVector3 (maxRadius * (1 - t) * cos (2 * PI * spirals * t))
            ((t - 0.5) * height)
            (maxRadius * (1 - t) * sin (2 * PI * spirals * t)).


(* ================================================================= *)
(** ** maath/easing *)

Module Maath.

(** Modelled from the spec: the clamp of a progress value to [0, 1]
    that section 4.2 applies after every update of the transition
    controller. *)
Definition clamp01 (v : R) : R := Rmax 0 (Rmin 1 v).

(** Modelled from the spec: [damp(ref, 'current', target, rate, dt)] is
    imported from maath/easing by every component and its body is not
    among the sources.  Section 4.2 gives the update as exponential
    smoothing, [progress += (target - progress) * (1 - e^(-rate * dt))],
    clamped to [0, 1] afterwards; the function stands for the new value
    of [ref.current].  The fourth argument is read as the rate of that
    formula, which is how the components' comments describe the value
    they pass ("Scatter: 2.5 (Fastish), Tree: 1.0 (Elegant)"). *)
Definition damp (current target rate dt : R) : R :=
  clamp01 (current + (target - current) * (1 - exp (- (rate * dt)))).

End Maath.

(* ================================================================= *)
(** ** The transition controllers: the [damp] call of every [useFrame]

    Each function is the progress update of one component's frame
    callback, for a mounted component (the early [return] on a missing
    ref is not taken). *)

Definition isTree (treeState : TreeState) : bool :=
  TreeState_eqb treeState TREE_SHAPE.

(** [Foliage]: [damp(progress, 'current', isTree ? 1 : 0, dampSpeed, delta)]
    with [dampSpeed = isTree ? 1.0 : 2.5]. *)
Definition Foliage_progress (treeState : TreeState) (progress delta : R) : R :=
  let dampSpeed := if isTree treeState then 1.0 else 2.5 in
  Maath.damp progress (if isTree treeState then 1 else 0) dampSpeed delta.

Definition MagicSpiral_progress (treeState : TreeState) (progress delta : R) : R :=
  let dampSpeed := if isTree treeState then 1.0 else 2.5 in
  Maath.damp progress (if isTree treeState then 1 else 0) dampSpeed delta.

Definition Ornaments_progress (treeState : TreeState) (progress delta : R) : R :=
  let dampSpeed := if isTree treeState then 1.0 else 2.5 in
  Maath.damp progress (if isTree treeState then 1 else 0) dampSpeed delta.

Definition StarTop_progress (treeState : TreeState) (progress delta : R) : R :=
  let dampSpeed := if isTree treeState then 1.0 else 2.5 in
  Maath.damp progress (if isTree treeState then 1 else 0) dampSpeed delta.

(** [GingerbreadMan] passes [isTree ? 1.0 : 2.0]. *)
Definition GingerbreadMan_progress (treeState : TreeState) (progress delta : R) : R :=
  Maath.damp progress (if isTree treeState then 1 else 0)
             (if isTree treeState then 1.0 else 2.0) delta.

(** [GingerbreadMan]: [damp(modeRef, 'current', active ? 1 : 0, 3.0, delta)]. *)
Definition GingerbreadMan_mode (active : bool) (modeRef delta : R) : R :=
  Maath.damp modeRef (if active then 1 else 0) 3.0 delta.

(** The subsystems that own a [progress] ref. *)
Inductive Subsystem : Type :=
| Foliage | MagicSpiral | Ornaments | StarTop | GingerbreadMan.


Definition advance (s : Subsystem) : TreeState -> R -> R -> R :=
  match s with
  | Foliage => Foliage_progress
  | MagicSpiral => MagicSpiral_progress
  | Ornaments => Ornaments_progress
  | StarTop => StarTop_progress
  | GingerbreadMan => GingerbreadMan_progress
  end.

(** The value [progress] is damped toward. *)
Definition target (treeState : TreeState) : R :=
  if isTree treeState then 1 else 0.

(** [n] frames under a constant mode and a fixed frame delta. *)
Fixpoint frames (s : Subsystem) (treeState : TreeState) (dt : R) (n : nat)
  (progress : R) : R :=
  match n with
  | O => progress
  | S k => advance s treeState (frames s treeState dt k progress) dt
  end.

(** Frames under a constant mode, one per frame delta of the list. *)
Definition run (s : Subsystem) (treeState : TreeState) (dts : list R)
  (progress : R) : R :=
  fold_left (fun p dt => advance s treeState p dt) dts progress.

(* ================================================================= *)
(** ** The blended position of every [useFrame] *)

(** The fixed data of one entity: the two positions, and the per-entity
    parameter its oscillation reads ([item.phase] of an ornament,
    [aRandom] of a foliage particle, the index [i] of a spiral particle). *)
Record Entity : Type := mkEntity {
  scatterPos : Vector3;
  treePos : Vector3;
  phase : R;
  aRandom : R;
  index : nat
}.

(** What a frame supplies: the damped progress [p], the clock, and for
    the gingerbread man the damped highlight [m] and the camera. *)
Record Frame : Type := mkFrame {
  p : R;
  time : R;
  m : R;
  cameraPos : Vector3;
  cameraDir : Vector3
}.

(** [Foliage], vertex shader: [finalPos] of [main()]. *)
Definition Foliage_finalPos (uTime uProgress : R)
  (aScatterPos aTreePos : Vector3) (aRandom : R) : Vector3 :=
  let targetPos := mix3 aScatterPos aTreePos uProgress in
  let breathe := sin (uTime * 1.5 + aRandom * 10.0) * 0.1 in
  let chaotic := sin (uTime * 0.5 + aRandom * 5.0) * 0.5 in
  let movement :=
    multiplyScalar (mix chaotic breathe uProgress) (mkVector3 0.0 1.0 0.0) in
  add targetPos movement.

(** [MagicSpiral], the body of the particle loop: the arguments of
    [positionsAttribute.setXYZ(i, ...)]. *)
Definition MagicSpiral_setXYZ (time p : R) (i : nat)
  (scatter tree : Vector3) : Vector3 :=
  let tx := x tree in
  let ty := y tree in
  let tz := z tree in
  let sx := x scatter in
  let sy := y scatter in
  let sz := z scatter in
  let wave := sin (time * 1.0 + INR i * 0.2) * 0.1 * p in
  mkVector3 (sx + (tx - sx) * p) (sy + (ty - sy) * p + wave) (sz + (tz - sz) * p).

(** [Ornaments], the body of [data.forEach]: the value copied into
    [tempObj.position]. *)
Definition Ornaments_position (time p : R) (item : Entity) : Vector3 :=
  let currentPos := lerpVectors (scatterPos item) (treePos item) p in
  let floatAmp := 0.2 * (1 - p) + 0.05 * p in
  let floatY := sin (time * 0.5 + phase item) * floatAmp in
  let floatX := cos (time * 0.3 + phase item) * (floatAmp * 0.5) in
  let currentPos :=
    mkVector3 (x currentPos) (y currentPos + floatY) (z currentPos) in
  let currentPos :=
    mkVector3 (x currentPos + floatX) (y currentPos) (z currentPos) in
  currentPos.

(** [StarTop]: the value copied into [groupRef.current.position]. *)
Definition StarTop_position (time p : R) (scatterPos treePos : Vector3)
  : Vector3 :=
  let currentPos := lerpVectors scatterPos treePos p in
  mkVector3 (x currentPos) (y currentPos + sin (time * 2) * 0.1) (z currentPos).

(** [GingerbreadMan]: [normalPos], then the blend toward the point five
    units in front of the camera. *)
Definition GingerbreadMan_position (p m : R) (scatterPos treePos : Vector3)
  (cameraPos cameraDir : Vector3) : Vector3 :=
  let normalPos := lerpVectors scatterPos treePos p in
  let frontPos := add cameraPos (multiplyScalar 5 cameraDir) in
  let currentPos := lerpVectors normalPos frontPos m in
  currentPos.

(** The position a subsystem hands to the renderer for one entity. *)
Definition position (s : Subsystem) (e : Entity) (f : Frame) : Vector3 :=
  match s with
  | Foliage => Foliage_finalPos (time f) (p f) (scatterPos e) (treePos e) (aRandom e)
  | MagicSpiral => MagicSpiral_setXYZ (time f) (p f) (index e) (scatterPos e) (treePos e)
  | Ornaments => Ornaments_position (time f) (p f) e
  | StarTop => StarTop_position (time f) (p f) (scatterPos e) (treePos e)
  | GingerbreadMan =>
      GingerbreadMan_position (p f) (m f) (scatterPos e) (treePos e)
                              (cameraPos f) (cameraDir f)
  end.

(** The sinusoidal offset each subsystem adds to the blend; the
    gingerbread man has none. *)
Definition oscillation (s : Subsystem) (e : Entity) (f : Frame) : Vector3 :=
  match s with
  | Foliage =>
      mkVector3 0
        (mix (sin (time f * 0.5 + aRandom e * 5.0) * 0.5)
             (sin (time f * 1.5 + aRandom e * 10.0) * 0.1) (p f))
        0
  | MagicSpiral =>
      mkVector3 0 (sin (time f * 1.0 + INR (index e) * 0.2) * 0.1 * p f) 0
  | Ornaments =>
      mkVector3
        (cos (time f * 0.3 + phase e) * ((0.2 * (1 - p f) + 0.05 * p f) * 0.5))
        (sin (time f * 0.5 + phase e) * (0.2 * (1 - p f) + 0.05 * p f))
        0
  | StarTop => mkVector3 0 (sin (time f * 2) * 0.1) 0
  | GingerbreadMan => mkVector3 0 0 0
  end.

(** The componentwise linear interpolation of the two positions. *)
Definition blend (e : Entity) (progress : R) : Vector3 :=
  mkVector3 (x (scatterPos e) + (x (treePos e) - x (scatterPos e)) * progress)
            (y (scatterPos e) + (y (treePos e) - y (scatterPos e)) * progress)
            (z (scatterPos e) + (z (treePos e) - z (scatterPos e)) * progress).

(** A gingerbread man scattered at the origin, and a frame half way
    into its highlight with the camera at [(0, 0, 33)] looking at the
    origin. *)
Definition cookie : Entity :=
  mkEntity (mkVector3 0 0 0) (mkVector3 0 (-2.5) 0) 0 0 0.

Definition highlight_frame : Frame :=
  mkFrame 0 0 (1 / 2) (mkVector3 0 0 33) (mkVector3 0 0 (-1)).

(** Every component of [v] is at most [a] in absolute value. *)
Definition within (a : R) (v : Vector3) : Prop :=
  Rabs (x v) <= a /\ Rabs (y v) <= a /\ Rabs (z v) <= a.

(* ================================================================= *)
(** ** [Experience]: the camera [useFrame] *)

(** The camera position after one frame.  [newLen] is a real number
    here, so the [!isNaN(newLen)] half of the safety check always holds. *)
Definition Experience_camera (treeState : TreeState) (position : Vector3)
  (delta : R) : Vector3 :=
  let safeDelta := Math.min delta 0.1 in
  let isTree := isTree treeState in
  let targetDist := if isTree then 33 else 5 in
  let currentLen := length position in
  let diff := targetDist - currentLen in
  let move := diff * safeDelta * 2.5 in
  if Rlt_dec 0.1 (Math.abs diff) then
    let newLen := currentLen + move in
    if Rlt_dec 0.1 newLen then setLength newLen position else position
  else position.

(** The target distance the mode selects. *)
Definition targetDist (treeState : TreeState) : R :=
  if isTree treeState then 33 else 5.

(* ================================================================= *)
(** ** The burst effect of [StarTop] and [Ornaments]

    Both components run the same [useEffect] with the dependency list
    [[treeState]].  The host's timers are modelled as the list of
    pending timeouts, the clock in milliseconds. *)

Module Burst.

Local Open Scope Z_scope.

(** A pending [setTimeout]; the only callback ever armed is
    [burstRef.current = 1.0]. *)
Record Timer : Type := mkTimer { timerId : nat; due : Z }.

Record Component : Type := mkComponent {
  treeState : TreeState;      (* the prop of the last commit *)
  burstRef : R;
  timers : list Timer;        (* the timeouts still pending *)
  cleanup : option nat;       (* the timer the effect's cleanup clears *)
  now : Z;
  nextId : nat
}.

Definition setTimeout (delay : Z) (c : Component) : nat * Component :=
  (nextId c,
   mkComponent (treeState c) (burstRef c)
     (timers c ++ [mkTimer (nextId c) (now c + delay)])
     (cleanup c) (now c) (S (nextId c))).

Definition clearTimeout (timer : nat) (c : Component) : Component :=
  mkComponent (treeState c) (burstRef c)
    (filter (fun t => negb (Nat.eqb (timerId t) timer)) (timers c))
    (cleanup c) (now c) (nextId c).

Definition set_burstRef (v : R) (c : Component) : Component :=
  mkComponent (treeState c) v (timers c) (cleanup c) (now c) (nextId c).

Definition set_cleanup (f : option nat) (c : Component) : Component :=
  mkComponent (treeState c) (burstRef c) (timers c) f (now c) (nextId c).

Definition set_treeState (ts : TreeState) (c : Component) : Component :=
  mkComponent ts (burstRef c) (timers c) (cleanup c) (now c) (nextId c).

(** The body of the effect. *)
Definition effect (ts : TreeState) (c : Component) : Component :=
  if TreeState_eqb ts SCATTERED then
    let c := set_burstRef 2.0%R c in
    let (timer, c) := setTimeout 3000 c in
    set_cleanup (Some timer) c
  else
    set_cleanup None (set_burstRef 1.0%R c).

(** The function the previous run of the effect returned, if any. *)
Definition runCleanup (c : Component) : Component :=
  match cleanup c with
  | Some timer => clearTimeout timer c
  | None => c
  end.

(** A commit that re-runs the effect: cleanup first, then the body. *)
Definition commit (ts : TreeState) (c : Component) : Component :=
  effect ts (set_treeState ts (runCleanup c)).

(** A render with prop [ts]: the effect re-runs only when the
    dependency changed. *)
Definition render (ts : TreeState) (c : Component) : Component :=
  if TreeState_eqb ts (treeState c) then c else commit ts c.

(** [useRef(1.0)], then the effect of the first commit. *)
Definition mount (ts : TreeState) : Component :=
  effect ts (mkComponent ts 1.0%R [] None 0 O).

(** [ms] milliseconds pass: every timeout that falls due fires, setting
    [burstRef.current = 1.0], and is gone. *)
Definition elapse (ms : Z) (c : Component) : Component :=
  let now' := now c + ms in
  let fired := filter (fun t => due t <=? now') (timers c) in
  let pending := filter (fun t => negb (due t <=? now')) (timers c) in
  mkComponent (treeState c)
    (match fired with [] => burstRef c | _ :: _ => 1.0%R end)
    pending (cleanup c) now' (nextId c).

(** Unmounting runs the cleanup. *)
Definition unmount (c : Component) : Component := runCleanup c.

Inductive Event : Type :=
| Render (ts : TreeState)
| Elapse (ms : Z).

Definition step (c : Component) (e : Event) : Component :=
  match e with
  | Render ts => render ts c
  | Elapse ms => elapse ms c
  end.

(** The states a mounted component can be in: time only moves forward. *)
Inductive reachable : Component -> Prop :=
| reach_mount ts : reachable (mount ts)
| reach_render ts c : reachable c -> reachable (render ts c)
| reach_elapse ms c : 0 <= ms -> reachable c -> reachable (elapse ms c).

(** The two states of the scheduler, read off the pending timers. *)
Inductive Mode : Type := NORMAL | BURST.

Definition mode (c : Component) : Mode :=
  match timers c with [] => NORMAL | _ :: _ => BURST end.

(** The multiplier the frame loop reads: [burstRef.current]. *)
Definition multiplier (c : Component) : R := burstRef c.

(** What holds of every reachable state: either nothing is pending and
    the multiplier is 1, or exactly one timeout is pending, it is the
    one the cleanup would clear, it falls due within the next three
    seconds, the mode is scattered and the multiplier is 2. *)
Definition invariant (c : Component) : Prop :=
  match timers c with
  | [] => burstRef c = 1%R
  | [t] =>
      burstRef c = 2%R /\ cleanup c = Some (timerId t)
      /\ now c < due t <= now c + 3000 /\ treeState c = SCATTERED
  | _ :: _ :: _ => False
  end.

End Burst.

(** The rate each subsystem hands to [damp]. *)
Definition dampSpeed (s : Subsystem) (treeState : TreeState) : R :=
  match s with
  | GingerbreadMan => if isTree treeState then 1.0 else 2.0
  | _ => if isTree treeState then 1.0 else 2.5
  end.

(** How far a progress value is from the value it is damped toward. *)
Definition distance (treeState : TreeState) (progress : R) : R :=
  Rabs (target treeState - progress).


(* ================================================================= *)
(** ** [Ornaments]: the data of [useMemo] and the instance loop *)

Inductive OrnamentType : Type := box | sphere | diamond.

Module Orn.

(** [OrnamentData]. *)
Record OrnamentData : Type := mkOrnamentData {
  scatterPos : Vector3;
  treePos : Vector3;
  rotationSpeed : Vector3;
  baseScale : R;
  phase : R
}.

(** What [setMatrixAt] receives for one instance: the position, the
    Euler rotation and the uniform scale [tempObj.matrix] is composed
    from. *)
Record Instance : Type := mkInstance {
  position : Vector3;
  rotation : Vector3;
  scale : R
}.

End Orn.

(** One pass of the [for] loop of [useMemo]: the item pushed for index
    [i].  The draws are taken in the order of the source: [t], the three
    of [getTreeSpiralPoint], the one of [baseScale], the three of
    [getRandomSpherePoint], the three of [rotationSpeed], and [phase]. *)
Definition Ornaments_item (type : OrnamentType) (minT maxT : R) (i : nat)
  (g : RandomSource) : Orn.OrnamentData * RandomSource :=
  let rangeSpan := maxT - minT in
  let (u, g) := random g in
  let t := minT + u * rangeSpan in
  let (treeP, g) := getTreeSpiralPoint t 5.5 13 15 1.2 g in
  let isLargeVariant := Nat.eqb (Nat.modulo i 2) 0 in
  let variantMultiplier := if isLargeVariant then 1.35 else 1.0 in
  let heightMultiplier := if Rlt_dec 0.66 t then 1.0 else 1.25 in
  let (s, g) := random g in
  let baseScale :=
    match type with
    | box => (0.2 + s * 0.2) * variantMultiplier * heightMultiplier
    | sphere => (0.15 + s * 0.15) * variantMultiplier * heightMultiplier
    | diamond => (0.1 + s * 0.1) * variantMultiplier * heightMultiplier
    end in
  let (scatterP, g) := getRandomSpherePoint 14 g in
  let (rx, g) := random g in
  let (ry, g) := random g in
  let (rz, g) := random g in
  let (ph, g) := random g in
  (Orn.mkOrnamentData scatterP treeP
     (mkVector3 ((rx - 0.5) * 0.01) ((ry - 0.5) * 0.01) ((rz - 0.5) * 0.01))
     baseScale (ph * PI * 2),
   g).

(** The loop [for (let i = 0; i < count; i++)], from index [i] with
    [n] passes left. *)
Fixpoint Ornaments_loop (type : OrnamentType) (minT maxT : R) (n i : nat)
  (g : RandomSource) : list Orn.OrnamentData * RandomSource :=
  match n with
  | O => ([], g)
  | S k =>
      let (item, g1) := Ornaments_item type minT maxT i g in
      let (items, g2) := Ornaments_loop type minT maxT k (S i) g1 in
      (item :: items, g2)
  end.

(** [data]. *)
Definition Ornaments_data (count : nat) (type : OrnamentType)
  (minT maxT : R) (g : RandomSource) : list Orn.OrnamentData * RandomSource :=
  Ornaments_loop type minT maxT count 0 g.

(** The entity the position blend reads off an item. *)
Definition Ornaments_entity (item : Orn.OrnamentData) (i : nat) : Entity :=
  mkEntity (Orn.scatterPos item) (Orn.treePos item) (Orn.phase item) 0 i.

(** The body of [data.forEach]: [rot] is [tempObj.rotation], which the
    memoised [tempObj] carries from one item to the next and from one
    frame to the next. *)
Definition Ornaments_forEach_body (time p burstMult scaleFactor : R)
  (rot : Vector3) (item : Orn.OrnamentData) (i : nat)
  : Vector3 * Orn.Instance :=
  let currentPos := Ornaments_position time p (Ornaments_entity item i) in
  let rot :=
    mkVector3 (x rot + x (Orn.rotationSpeed item) * burstMult)
              (y rot + y (Orn.rotationSpeed item) * burstMult)
              (z rot + z (Orn.rotationSpeed item) * burstMult) in
  let pulse := 1 + sin (time * 2 + Orn.phase item) * 0.05 in
  let transitionScale := 0.6 + 0.4 * p in
  let finalScale := Orn.baseScale item * scaleFactor * pulse * transitionScale in
  (rot, Orn.mkInstance currentPos rot finalScale).

(** [data.forEach((item, i) => ...)] from index [i]. *)
Fixpoint Ornaments_forEach (time p burstMult scaleFactor : R)
  (rot : Vector3) (data : list Orn.OrnamentData) (i : nat)
  : Vector3 * list Orn.Instance :=
  match data with
  | [] => (rot, [])
  | item :: rest =>
      let (rot1, inst) :=
        Ornaments_forEach_body time p burstMult scaleFactor rot item i in
      let (rot2, insts) :=
        Ornaments_forEach time p burstMult scaleFactor rot1 rest (S i) in
      (rot2, inst :: insts)
  end.

(** The sum of the rotation speeds of a list of items. *)
Definition speedSum (data : list Orn.OrnamentData) : Vector3 :=
  fold_right (fun item acc => add (Orn.rotationSpeed item) acc)
             (mkVector3 0 0 0) data.

(** What every item of [data] satisfies. *)
Definition Ornaments_item_ok (type : OrnamentType) (minT maxT : R)
  (item : Orn.OrnamentData) : Prop :=
  length (Orn.scatterPos item) <= 14
  /\ (exists t, minT <= t <= maxT
        /\ within 0.6 (add (Orn.treePos item)
                           (multiplyScalar (-1) (helix t 5.5 13 15))))
  /\ within 0.005 (Orn.rotationSpeed item)
  /\ 0 <= Orn.phase item < 2 * PI
  /\ match type with
     | box => 0.2 <= Orn.baseScale item < 0.675
     | sphere => 0.15 <= Orn.baseScale item < 0.50625
     | diamond => 0.1 <= Orn.baseScale item < 0.3375
     end.


(* ================================================================= *)
(** ** [StarTop]: positions, star outline, the rest of the frame *)

(** The [useMemo] of the two positions: the scatter point is drawn in
    the ball of radius 12 and its height replaced by
    [Math.abs(scatterPos.y) + 5]. *)
Definition StarTop_positions (g : RandomSource)
  : (Vector3 * Vector3) * RandomSource :=
  let treePos := mkVector3 0 7.8 0 in
  let (scatterPos, g) := getRandomSpherePoint 12 g in
  let scatterPos :=
    mkVector3 (x scatterPos) (Math.abs (y scatterPos) + 5) (z scatterPos) in
  ((scatterPos, treePos), g).

(** The [i]-th point of the star outline: [moveTo] for [i = 0],
    [lineTo] afterwards. *)
Definition StarTop_outline_point (i : nat) : R * R :=
  let points := 5 in
  let outerRadius := 0.9 in
  let innerRadius := 0.4 in
  let angle := (INR i * PI) / points in
  let r := if Nat.eqb (Nat.modulo i 2) 0 then outerRadius else innerRadius in
  let x := sin angle * r in
  let y := cos angle * r in
  (x, y).

(** The outline: [for (let i = 0; i < points * 2; i++)]. *)
Definition StarTop_outline : list (R * R) :=
  map StarTop_outline_point (seq 0 (5 * 2)).

(** The mesh rotation and the group scale of one frame: the new
    [rotation.y], [rotation.z] and the scale. *)
Definition StarTop_spin (time delta p burst rotationY : R) : R * R * R :=
  let rotationY := rotationY + delta * 1.5 * burst in
  let rotationZ := sin (time * 1.5) * 0.1 in
  let scale := 1.0 * p + 0.4 * (1 - p) in
  (rotationY, rotationZ, scale).

(* ================================================================= *)
(** ** [MagicSpiral]: the particles of [useMemo] *)

(** The tree position of particle [i] of [count]. *)
Definition MagicSpiral_tree (count : nat) (radius height : R) (i : nat)
  : Vector3 :=
  let t := INR i / INR count in
  let loops := 4 in
  let angle := t * PI * 2 * loops in
  let currentRadius := radius * (1 - t) + 0.5 in
  let y := (t - 0.5) * height in
  let x := cos angle * currentRadius in
  let z := sin angle * currentRadius in
  mkVector3 x y z.

(** One pass of the loop: the tree, scatter and initial positions and
    the size of particle [i]. *)
Definition MagicSpiral_particle (count : nat) (radius height : R) (i : nat)
  (g : RandomSource) : (Vector3 * Vector3 * Vector3 * R) * RandomSource :=
  let tree := MagicSpiral_tree count radius height i in
  let (scatterP, g) := getRandomSpherePoint 20 g in
  let pos := tree in
  let (s, g) := random g in
  let sz := 0.5 + s * 0.5 in
  ((tree, scatterP, pos, sz), g).

(* ================================================================= *)
(** ** [Foliage]: the particles of [useMemo] *)

(** [Math.pow(u, 0.8)] on a draw [u] of [0, 1). *)
Definition Foliage_height (u : R) : R :=
  if Req_dec_T u 0 then 0 else Rpower u 0.8.

(** One pass of the loop: the tree and scatter positions and [aRandom]
    of a particle. *)
Definition Foliage_particle (g : RandomSource)
  : (Vector3 * Vector3 * R) * RandomSource :=
  let (u, g) := random g in
  let t := Foliage_height u in
  let (treeP, g) := getTreeSpiralPoint t 6 14 15 0.6 g in
  let (scatterP, g) := getRandomSpherePoint 15 g in
  let (rnd, g) := random g in
  ((treeP, scatterP, rnd), g).

(* ================================================================= *)
(** ** [GingerbreadMan]: hiding place and scale *)

(** The [treePos] of [useMemo]. *)
Definition GingerbreadMan_treePos : Vector3 :=
  let angle := PI * 0.25 in
  let r := 3.2 in
  let y := -2.5 in
  mkVector3 (cos angle * r) y (sin angle * r).

(** [finalScale] of the frame. *)
Definition GingerbreadMan_scale (active : bool) (p m : R) : R :=
  let baseScale := 0.6 * p + 0.3 * (1 - p) in
  let targetScale := if active then 0.15 else baseScale in
  lerp baseScale targetScale m.

(* ================================================================= *)
(** ** Frames of the star, and the size of the oscillations *)

(** The rotation of the star after a sequence of frames, each with its
    delta, under a constant multiplier. *)
Definition StarTop_spin_frames (burst : R) (deltas : list R) (rotationY : R)
  : R :=
  fold_left (fun rot delta => fst (fst (StarTop_spin 0 delta 0 burst rot)))
            deltas rotationY.

(** The sum of a list of frame deltas. *)
Definition elapsed (deltas : list R) : R := fold_right Rplus 0 deltas.

(** The largest size a component of a subsystem's oscillation can have
    at progress [p]. *)
Definition amplitude (s : Subsystem) (p : R) : R :=
  match s with
  | Foliage => 0.5 * (1 - p) + 0.1 * p
  | MagicSpiral => 0.1 * p
  | Ornaments => 0.2 * (1 - p) + 0.05 * p
  | StarTop => 0.1
  | GingerbreadMan => 0
  end.

(* ================================================================= *)
(** ** [Experience]: the burst of the auto-rotation

    The effect of [Experience] has the shape of the one of [StarTop]
    and [Ornaments], with [controlsRef.current.autoRotateSpeed] in the
    place of [burstRef.current], 0.3 as the resting value, and every
    access guarded by [if (controlsRef.current)]. *)

Module AutoRotate.

Local Open Scope Z_scope.

Record Component : Type := mkComponent {
  treeState : TreeState;
  controls : option R;          (* [controlsRef.current.autoRotateSpeed] *)
  timers : list Burst.Timer;
  cleanup : option nat;
  now : Z;
  nextId : nat
}.

Definition set_speed (v : R) (c : Component) : Component :=
  mkComponent (treeState c) (Some v) (timers c) (cleanup c) (now c) (nextId c).

Definition setTimeout (delay : Z) (c : Component) : nat * Component :=
  (nextId c,
   mkComponent (treeState c) (controls c)
     (timers c ++ [Burst.mkTimer (nextId c) (now c + delay)])
     (cleanup c) (now c) (S (nextId c))).

Definition clearTimeout (timer : nat) (c : Component) : Component :=
  mkComponent (treeState c) (controls c)
    (filter (fun t => negb (Nat.eqb (Burst.timerId t) timer)) (timers c))
    (cleanup c) (now c) (nextId c).

Definition set_cleanup (f : option nat) (c : Component) : Component :=
  mkComponent (treeState c) (controls c) (timers c) f (now c) (nextId c).

Definition set_treeState (ts : TreeState) (c : Component) : Component :=
  mkComponent ts (controls c) (timers c) (cleanup c) (now c) (nextId c).

(** The body of the effect. *)
Definition effect (ts : TreeState) (c : Component) : Component :=
  match controls c with
  | Some _ =>
      if TreeState_eqb ts SCATTERED then
        let c := set_speed 2.0%R c in
        let (timer, c) := setTimeout 3000 c in
        set_cleanup (Some timer) c
      else
        set_cleanup None (set_speed 0.3%R c)
  | None => set_cleanup None c
  end.

Definition runCleanup (c : Component) : Component :=
  match cleanup c with
  | Some timer => clearTimeout timer c
  | None => c
  end.

Definition commit (ts : TreeState) (c : Component) : Component :=
  effect ts (set_treeState ts (runCleanup c)).

Definition render (ts : TreeState) (c : Component) : Component :=
  if TreeState_eqb ts (treeState c) then c else commit ts c.

(** The first commit, the controls being mounted with the
    [autoRotateSpeed={0.3}] of the JSX. *)
Definition mount (ts : TreeState) : Component :=
  effect ts (mkComponent ts (Some 0.3%R) [] None 0 O).

(** [ms] milliseconds pass: a timeout that falls due runs
    [if (controlsRef.current) controlsRef.current.autoRotateSpeed = 0.3]. *)
Definition elapse (ms : Z) (c : Component) : Component :=
  let now' := now c + ms in
  let fired := filter (fun t => Burst.due t <=? now') (timers c) in
  let pending := filter (fun t => negb (Burst.due t <=? now')) (timers c) in
  mkComponent (treeState c)
    (match fired with
     | [] => controls c
     | _ :: _ => match controls c with Some _ => Some 0.3%R | None => None end
     end)
    pending (cleanup c) now' (nextId c).

Definition step (c : Component) (e : Burst.Event) : Component :=
  match e with
  | Burst.Render ts => render ts c
  | Burst.Elapse ms => elapse ms c
  end.

(** The auto-rotation runs in step with a burst scheduler: same mode,
    timers, cleanup and clock, and the speed 2.0 exactly when the
    multiplier is 2. *)
Definition in_step (b : Burst.Component) (c : Component) : Prop :=
  Burst.treeState b = treeState c
  /\ Burst.timers b = timers c
  /\ Burst.cleanup b = cleanup c
  /\ Burst.now b = now c
  /\ Burst.nextId b = nextId c
  /\ (Burst.burstRef b = 2%R /\ controls c = Some 2.0%R
      \/ Burst.burstRef b = 1%R /\ controls c = Some 0.3%R).

End AutoRotate.

(* ================================================================= *)
(** ** The fragment shaders of [Foliage] and [MagicSpiral] *)

Module GLSL.

(** [length] of a [vec2]. *)
Definition length2 (a b : R) : R := sqrt (a * a + b * b).

(** [clamp(v, lo, hi)]. *)
Definition clamp (v lo hi : R) : R := Rmin (Rmax v lo) hi.

(** [smoothstep(e0, e1, v)]. *)
Definition smoothstep (e0 e1 v : R) : R :=
  let t := clamp ((v - e0) / (e1 - e0)) 0 1 in
  t * t * (3 - 2 * t).

(** [pow(b, e)] for a base [b >= 0] and an exponent [e > 0]. *)
Definition pow (b e : R) : R :=
  if Req_dec_T b 0 then 0 else Rpower b e.

End GLSL.

(** [Foliage], vertex shader: [vAlpha]. *)
Definition Foliage_vAlpha (uTime aRandom : R) : R :=
  0.8 + 0.2 * sin (uTime * 3.0 + aRandom * 10.0).

(** [Foliage], fragment shader at the point coordinate [(cx, cy)]:
    [None] for a discarded fragment, else the colour and the alpha of
    [gl_FragColor]. *)
Definition Foliage_fragment (cx cy vAlpha : R) : option (Vector3 * R) :=
  let ll := GLSL.length2 (cx - 0.5) (cy - 0.5) in
  if Rlt_dec 0.5 ll then None
  else
    let colorCore := mkVector3 0.0 0.4 0.15 in
    let colorRim := mkVector3 1.0 0.8 0.2 in
    let mixFactor := GLSL.smoothstep 0.0 0.5 ll in
    let finalColor := mix3 colorCore colorRim (GLSL.pow mixFactor 3.0) in
    Some (multiplyScalar 2.0 finalColor, vAlpha).

(** [MagicSpiral], fragment shader at the point coordinate [(cx, cy)]. *)
Definition MagicSpiral_fragment (cx cy : R) : option (Vector3 * R) :=
  let r := GLSL.length2 (cx - 0.5) (cy - 0.5) in
  if Rlt_dec 0.5 r then None
  else
    let glow := 1.0 - (r * 2.0) in
    let glow := GLSL.pow glow 2.0 in
    Some (mkVector3 2.0 2.0 2.0, glow * 0.6).


(* ================================================================= *)
(** ** What every [useFrame] hands to [damp] *)

(** The arguments of a call [damp(ref, 'current', target, speed, delta)]:
    the value of [ref.current], the target, the fourth argument and the
    delta. *)
Record DampArgs : Type := mkDampArgs {
  arg_current : R;
  arg_target : R;
  arg_speed : R;
  arg_delta : R
}.

(** [Foliage]: [damp(progress, 'current', isTree ? 1 : 0, dampSpeed, delta)]. *)
Definition Foliage_damp_args (treeState : TreeState) (progress delta : R)
  : DampArgs :=
  let dampSpeed := if isTree treeState then 1.0 else 2.5 in
  mkDampArgs progress (if isTree treeState then 1 else 0) dampSpeed delta.

Definition MagicSpiral_damp_args (treeState : TreeState) (progress delta : R)
  : DampArgs :=
  let dampSpeed := if isTree treeState then 1.0 else 2.5 in
  mkDampArgs progress (if isTree treeState then 1 else 0) dampSpeed delta.

Definition Ornaments_damp_args (treeState : TreeState) (progress delta : R)
  : DampArgs :=
  let dampSpeed := if isTree treeState then 1.0 else 2.5 in
  mkDampArgs progress (if isTree treeState then 1 else 0) dampSpeed delta.

Definition StarTop_damp_args (treeState : TreeState) (progress delta : R)
  : DampArgs :=
  let dampSpeed := if isTree treeState then 1.0 else 2.5 in
  mkDampArgs progress (if isTree treeState then 1 else 0) dampSpeed delta.

(** [GingerbreadMan]:
    [damp(progress, 'current', isTree ? 1 : 0, isTree ? 1.0 : 2.0, delta)]. *)
Definition GingerbreadMan_damp_args (treeState : TreeState)
  (progress delta : R) : DampArgs :=
  mkDampArgs progress (if isTree treeState then 1 else 0)
             (if isTree treeState then 1.0 else 2.0) delta.

Definition damp_args (s : Subsystem) : TreeState -> R -> R -> DampArgs :=
  match s with
  | Foliage => Foliage_damp_args
  | MagicSpiral => MagicSpiral_damp_args
  | Ornaments => Ornaments_damp_args
  | StarTop => StarTop_damp_args
  | GingerbreadMan => GingerbreadMan_damp_args
  end.

(** The call itself, on those arguments. *)
Definition call_damp (a : DampArgs) : R :=
  Maath.damp (arg_current a) (arg_target a) (arg_speed a) (arg_delta a).

(** [Experience]: [const safeDelta = Math.min(delta, 0.1)], the delta
    the camera update computes with. *)
Definition Experience_safeDelta (delta : R) : R := Math.min delta 0.1.

(* ================================================================= *)
(** * Properties *)

(** ** Cube roots and vector lengths *)

Lemma cbrt_pos (w : R) : 0 < w -> 0 < Math.cbrt w.
Proof.
  intros Hw. unfold Math.cbrt.
  destruct (total_order_T w 0) as [[Hlt | Heq] | Hgt]; try lra.
  unfold Rpower. apply exp_pos.
Qed.

Lemma cbrt_cube (w : R) : 0 <= w -> Math.cbrt w * Math.cbrt w * Math.cbrt w = w.
Proof.
  intros Hw. unfold Math.cbrt.
  destruct (total_order_T w 0) as [[Hlt | Heq] | Hgt]; try lra.
  rewrite <- !Rpower_plus.
  replace (/ 3 + / 3 + / 3) with 1 by lra.
  now apply Rpower_1.
Qed.

Lemma cbrt_nonneg (w : R) : 0 <= w -> 0 <= Math.cbrt w.
Proof.
  intros [Hw | <-].
  - left. now apply cbrt_pos.
  - unfold Math.cbrt.
    destruct (total_order_T 0 0) as [[Hlt | Heq] | Hgt]; lra.
Qed.

Lemma cbrt_lt_1 (w : R) : 0 <= w < 1 -> Math.cbrt w < 1.
Proof.
  intros [H0 H1].
  pose proof (cbrt_nonneg w H0) as Hc.
  pose proof (cbrt_cube w H0) as Hcube.
  destruct (Rlt_dec (Math.cbrt w) 1) as [Hlt | Hge]; [exact Hlt | exfalso].
  assert (1 <= Math.cbrt w) as H by lra.
  assert (1 <= Math.cbrt w * Math.cbrt w) by nra.
  nra.
Qed.

Lemma cbrt_above (w : R) : 0 < w < 1 -> w < Math.cbrt w.
Proof.
  intros [H0 H1].
  pose proof (cbrt_pos w H0) as Hc.
  assert (Math.cbrt w < 1) as Hc1 by (apply cbrt_lt_1; lra).
  pose proof (cbrt_cube w (Rlt_le _ _ H0)) as Hcube.
  assert (Math.cbrt w * Math.cbrt w < 1) by nra.
  nra.
Qed.

Lemma sphere_point_length (r phi theta : R) :
  0 <= r ->
  length (mkVector3 (r * sin phi * cos theta) (r * sin phi * sin theta)
                    (r * cos phi)) = r.
Proof.
  intros Hr. unfold length. simpl.
  replace (r * sin phi * cos theta * (r * sin phi * cos theta)
           + r * sin phi * sin theta * (r * sin phi * sin theta)
           + r * cos phi * (r * cos phi))
    with (Rsqr r * (Rsqr (sin phi) * (Rsqr (sin theta) + Rsqr (cos theta))
                    + Rsqr (cos phi)))
    by (unfold Rsqr; ring).
  rewrite sin2_cos2, Rmult_1_r, sin2_cos2, Rmult_1_r.
  now apply sqrt_Rsqr.
Qed.

(** ** The generators of [utils/math.ts] *)

(** C4. For a positive radius and draws in [0, 1), the point of
    [getRandomSpherePoint] lies within the ball of that radius, and its
    distance from the centre is the cube root of the third draw times
    the radius: its cube is the draw times the cube of the radius, and
    it lies strictly above the draw times the radius unless the draw
    is zero. *)
Theorem getRandomSpherePoint_in_ball (radius : R) (g : RandomSource) :
  0 < radius ->
  unit_draws g ->
  let pt := fst (getRandomSpherePoint radius g) in
  let w := draws g (S (S (cursor g))) in
  length pt <= radius
  /\ length pt = Math.cbrt w * radius
  /\ length pt * length pt * length pt = w * (radius * radius * radius)
  /\ (0 < w -> w * radius < length pt).
Proof.
  intros Hr Hg pt w.
  destruct (Hg (S (S (cursor g)))) as [Hw0 Hw1]. fold w in Hw0, Hw1.
  pose proof (cbrt_nonneg w Hw0) as Hc0.
  pose proof (cbrt_lt_1 w (conj Hw0 Hw1)) as Hc1.
  assert (length pt = Math.cbrt w * radius) as Hlen.
  { unfold pt, getRandomSpherePoint, random. simpl.
    apply sphere_point_length. fold w. nra. }
  repeat split.
  - rewrite Hlen. nra.
  - exact Hlen.
  - rewrite Hlen. pose proof (cbrt_cube w Hw0) as Hcube.
    replace (Math.cbrt w * radius * (Math.cbrt w * radius)
             * (Math.cbrt w * radius))
      with (Math.cbrt w * Math.cbrt w * Math.cbrt w
            * (radius * radius * radius)) by ring.
    now rewrite Hcube.
  - intros Hpos. rewrite Hlen.
    pose proof (cbrt_above w (conj Hpos Hw1)). nra.
Qed.

Lemma getRandomSpherePoint_in_ball_witness :
  length (fst (getRandomSpherePoint 14 (constant_source (1 / 8)))) <= 14.
Proof.
  assert (unit_draws (constant_source (1 / 8))) as Hg.
  { intros n. simpl. lra. }
  assert (0 < 14) as Hr by lra.
  exact (proj1 (getRandomSpherePoint_in_ball 14 (constant_source (1 / 8)) Hr Hg)).
Defined.

(** C3. With [jitter = 0] the point of [getTreeSpiralPoint] is the
    helix point itself, whatever the random source yields: height
    [(t - 0.5) * H], horizontal radius [R * (1 - t)], angle
    [2 * PI * turns * t]. *)
Theorem getTreeSpiralPoint_zero_jitter (t maxRadius height spirals : R)
  (g : RandomSource) :
  let pt := fst (getTreeSpiralPoint t maxRadius height spirals 0 g) in
  x pt = maxRadius * (1 - t) * cos (2 * PI * spirals * t)
  /\ y pt = (t - 0.5) * height
  /\ z pt = maxRadius * (1 - t) * sin (2 * PI * spirals * t)
  /\ x pt * x pt + z pt * z pt = (maxRadius * (1 - t)) * (maxRadius * (1 - t))
  /\ pt = helix t maxRadius height spirals.
Proof.
  intros pt.
  assert (pt = helix t maxRadius height spirals) as Hpt.
  { unfold pt, getTreeSpiralPoint, helix, random. simpl.
    replace (t * PI * 2 * spirals) with (2 * PI * spirals * t) by ring.
    f_equal; ring. }
  rewrite Hpt. unfold helix. simpl.
  repeat split; try reflexivity.
  pose proof (sin2_cos2 (2 * PI * spirals * t)) as Hsc. unfold Rsqr in Hsc.
  replace (maxRadius * (1 - t) * cos (2 * PI * spirals * t)
           * (maxRadius * (1 - t) * cos (2 * PI * spirals * t))
           + maxRadius * (1 - t) * sin (2 * PI * spirals * t)
             * (maxRadius * (1 - t) * sin (2 * PI * spirals * t)))
    with (maxRadius * (1 - t) * (maxRadius * (1 - t))
          * (sin (2 * PI * spirals * t) * sin (2 * PI * spirals * t)
             + cos (2 * PI * spirals * t) * cos (2 * PI * spirals * t)))
    by ring.
  rewrite Hsc. ring.
Qed.

Lemma jitter_offset_bound (u jitter : R) :
  0 <= jitter -> 0 <= u < 1 -> Rabs ((u - 0.5) * jitter) <= jitter / 2.
Proof.
  intros Hj [Hu0 Hu1]. apply Rabs_le. split; nra.
Qed.

(** C10. For a non-negative [jitter] and draws in [0, 1), every
    coordinate of the point of [getTreeSpiralPoint] is within
    [jitter / 2] of the coordinate of the helix point. *)
Theorem getTreeSpiralPoint_near_helix (t maxRadius height spirals jitter : R)
  (g : RandomSource) :
  0 <= jitter ->
  unit_draws g ->
  let pt := fst (getTreeSpiralPoint t maxRadius height spirals jitter g) in
  Rabs (x pt - maxRadius * (1 - t) * cos (2 * PI * spirals * t)) <= jitter / 2
  /\ Rabs (y pt - (t - 0.5) * height) <= jitter / 2
  /\ Rabs (z pt - maxRadius * (1 - t) * sin (2 * PI * spirals * t)) <= jitter / 2.
Proof.
  intros Hj Hg pt.
  unfold pt, getTreeSpiralPoint, random. simpl.
  replace (t * PI * 2 * spirals) with (2 * PI * spirals * t) by ring.
  repeat split.
  - replace (_ - _) with ((draws g (cursor g) - 0.5) * jitter) by ring.
    now apply jitter_offset_bound.
  - replace (_ - _) with ((draws g (S (cursor g)) - 0.5) * jitter) by ring.
    now apply jitter_offset_bound.
  - replace (_ - _) with ((draws g (S (S (cursor g))) - 0.5) * jitter) by ring.
    now apply jitter_offset_bound.
Qed.

Lemma getTreeSpiralPoint_near_helix_witness :
  Rabs (y (fst (getTreeSpiralPoint (1 / 2) 6 14 15 0.6 (constant_source (1 / 4))))
        - (1 / 2 - 0.5) * 14) <= 0.6 / 2.
Proof.
  assert (unit_draws (constant_source (1 / 4))) as Hg.
  { intros n. simpl. lra. }
  assert (0 <= 0.6) as Hj by lra.
  exact (proj1 (proj2 (getTreeSpiralPoint_near_helix
                         (1 / 2) 6 14 15 0.6 (constant_source (1 / 4)) Hj Hg))).
Defined.

(** ** [normalize] *)

Lemma div_nonzero (a b : R) : b <> 0 -> JS.div a b = JS.Fin (a / b).
Proof.
  intros Hb. unfold JS.div. now destruct (Req_dec_T b 0).
Qed.

Lemma div_zero (a : R) :
  JS.div a 0 =
  match total_order_T a 0 with
  | inleft (left _) => JS.NegInf
  | inleft (right _) => JS.NaN
  | inright _ => JS.PosInf
  end.
Proof.
  unfold JS.div. destruct (Req_dec_T 0 0) as [_ | Hne]; [reflexivity | lra].
Qed.

(** C2, as stated, fails: with [max = min] the call does not fail.
    [normalize(1, 0, 0)] completes normally and returns [+Infinity],
    which is neither a throw nor [NaN]. *)
Lemma normalize_equal_bounds_returns :
  normalize 1 0 0 = Normal JS.PosInf /\ ~ domain_error (normalize 1 0 0).
Proof.
  assert (normalize 1 0 0 = Normal JS.PosInf) as H.
  { unfold normalize. replace (0 - 0) with 0 by ring.
    rewrite div_zero.
    destruct (total_order_T (1 - 0) 0) as [[Hlt | Heq] | Hgt];
      [lra | lra | reflexivity]. }
  split; [exact H |].
  rewrite H. intros [Hthrow | Hnan]; discriminate.
Qed.

(** C2, amended. [normalize(value, max, min)] returns
    [(value - min) / (max - min)] whenever [max <> min], so
    [normalize(5, 10, 0) = 0.5] and [normalize(0, 10, 0) = 0]; the call
    [normalize(x, m, m)] never throws: it returns [NaN] when [x = m],
    [+Infinity] when [x > m] and [-Infinity] when [x < m]. *)
Theorem normalize_quotient (val max min : R) :
  (max <> min ->
   normalize val max min = Normal (JS.Fin ((val - min) / (max - min))))
  /\ normalize 5 10 0 = Normal (JS.Fin 0.5)
  /\ normalize 0 10 0 = Normal (JS.Fin 0)
  /\ normalize val min min <> Throw
  /\ (val = min -> normalize val min min = Normal JS.NaN)
  /\ (min < val -> normalize val min min = Normal JS.PosInf)
  /\ (val < min -> normalize val min min = Normal JS.NegInf).
Proof.
  assert (forall v a b, a <> b ->
            normalize v a b = Normal (JS.Fin ((v - b) / (a - b)))) as Hq.
  { intros v a b Hab. unfold normalize. rewrite div_nonzero; [reflexivity | lra]. }
  assert (forall v b, normalize v b b =
            Normal match total_order_T (v - b) 0 with
                   | inleft (left _) => JS.NegInf
                   | inleft (right _) => JS.NaN
                   | inright _ => JS.PosInf
                   end) as Hz.
  { intros v b. unfold normalize. replace (b - b) with 0 by ring.
    now rewrite div_zero. }
  split; [apply Hq |].
  split; [rewrite Hq by lra; do 2 f_equal; lra |].
  split; [rewrite Hq by lra; do 2 f_equal; lra |].
  split; [discriminate |].
  rewrite Hz.
  destruct (total_order_T (val - min) 0) as [[Hlt | Heq] | Hgt];
    repeat split; intros; try reflexivity; lra.
Qed.

Lemma normalize_quotient_witness :
  normalize 5 10 0 = Normal (JS.Fin ((5 - 0) / (10 - 0)))
  /\ normalize 3 3 3 = Normal JS.NaN
  /\ normalize 4 3 3 = Normal JS.PosInf
  /\ normalize 2 3 3 = Normal JS.NegInf.
Proof.
  assert (10 <> 0) as H10 by lra.
  assert (3 < 4) as H34 by lra.
  assert (2 < 3) as H23 by lra.
  split; [exact (proj1 (normalize_quotient 5 10 0) H10) |].
  split; [exact (proj1 (proj2 (proj2 (proj2 (proj2
                   (normalize_quotient 3 0 3))))) eq_refl) |].
  split; [exact (proj1 (proj2 (proj2 (proj2 (proj2 (proj2
                   (normalize_quotient 4 0 3)))))) H34) |].
  exact (proj2 (proj2 (proj2 (proj2 (proj2 (proj2
           (normalize_quotient 2 0 3)))))) H23).
Defined.

(** ** The transition controller *)

Lemma clamp01_id (v : R) : 0 <= v <= 1 -> Maath.clamp01 v = v.
Proof.
  intros [H0 H1]. unfold Maath.clamp01.
  rewrite Rmin_right by exact H1. now rewrite Rmax_right.
Qed.

Lemma clamp01_range (v : R) : 0 <= Maath.clamp01 v <= 1.
Proof.
  unfold Maath.clamp01. split.
  - apply Rmax_l.
  - apply Rmax_lub; [lra | apply Rmin_l].
Qed.

Lemma decay_range (k : R) : 0 < k -> 0 < exp (- k) < 1.
Proof.
  intros Hk. split; [apply exp_pos |].
  rewrite <- exp_0. apply exp_increasing. lra.
Qed.

(** Inside [0, 1] the clamp of [damp] never fires: the new value is the
    target plus the old offset scaled by [e^(-rate * dt)]. *)
Lemma damp_decay (current tgt rate dt : R) :
  0 <= current <= 1 -> 0 <= tgt <= 1 -> 0 <= rate * dt ->
  Maath.damp current tgt rate dt
  = tgt + (current - tgt) * exp (- (rate * dt)).
Proof.
  intros Hc Ht Hk. unfold Maath.damp.
  assert (0 < exp (- (rate * dt)) <= 1) as Hq.
  { destruct Hk as [Hk | <-].
    - pose proof (decay_range _ Hk). lra.
    - rewrite Ropp_0, exp_0. lra. }
  rewrite clamp01_id; [ring | split; nra].
Qed.

Lemma advance_damp (s : Subsystem) (ts : TreeState) (progress dt : R) :
  advance s ts progress dt
  = Maath.damp progress (target ts) (dampSpeed s ts) dt.
Proof.
  destruct s, ts; reflexivity.
Qed.

Lemma dampSpeed_pos (s : Subsystem) (ts : TreeState) : 0 < dampSpeed s ts.
Proof.
  destruct s, ts; simpl; lra.
Qed.

Lemma target_range (ts : TreeState) : 0 <= target ts <= 1.
Proof.
  destruct ts; unfold target; simpl; lra.
Qed.

Lemma advance_decay (s : Subsystem) (ts : TreeState) (progress dt : R) :
  0 <= progress <= 1 -> 0 <= dt ->
  advance s ts progress dt
  = target ts + (progress - target ts) * exp (- (dampSpeed s ts * dt)).
Proof.
  intros Hp Hdt. rewrite advance_damp.
  apply damp_decay; [exact Hp | apply target_range |].
  pose proof (dampSpeed_pos s ts). nra.
Qed.

Lemma advance_range (s : Subsystem) (ts : TreeState) (progress dt : R) :
  0 <= advance s ts progress dt <= 1.
Proof.
  rewrite advance_damp. apply clamp01_range.
Qed.

Lemma frames_range (s : Subsystem) (ts : TreeState) (dt : R) (n : nat)
  (p0 : R) :
  0 <= p0 <= 1 -> 0 <= frames s ts dt n p0 <= 1.
Proof.
  intros Hp. destruct n; simpl; [exact Hp | apply advance_range].
Qed.

(** The closed form of [n] frames: the offset from the target is the
    initial offset times the [n]-th power of the decay factor. *)
Lemma frames_closed_form (s : Subsystem) (ts : TreeState) (dt : R) (n : nat)
  (p0 : R) :
  0 <= p0 <= 1 -> 0 <= dt ->
  frames s ts dt n p0
  = target ts + (p0 - target ts) * exp (- (dampSpeed s ts * dt)) ^ n.
Proof.
  intros Hp Hdt. induction n as [| n IH]; simpl.
  - ring.
  - rewrite advance_decay; [| now apply frames_range | exact Hdt].
    rewrite IH. ring.
Qed.

Lemma pow_decay_cv (q c : R) :
  0 < q < 1 -> Un_cv (fun n => c * q ^ n) 0.
Proof.
  intros Hq eps Heps.
  destruct (Req_dec c 0) as [-> | Hc].
  - exists O. intros n _. unfold R_dist.
    replace (0 * q ^ n - 0) with 0 by ring. now rewrite Rabs_R0.
  - assert (0 < Rabs c) as Habs by now apply Rabs_pos_lt.
    assert (0 < eps / Rabs c) as Hy by now apply Rdiv_lt_0_compat.
    assert (Rabs q < 1) as Hq1 by (rewrite Rabs_pos_eq; lra).
    destruct (pow_lt_1_zero q Hq1 (eps / Rabs c) Hy) as [N HN].
    exists N. intros n Hn. unfold R_dist.
    replace (c * q ^ n - 0) with (c * q ^ n) by ring.
    rewrite Rabs_mult.
    specialize (HN n Hn).
    apply Rmult_lt_compat_l with (r := Rabs c) in HN; [| exact Habs].
    replace (Rabs c * (eps / Rabs c)) with eps in HN by (field; lra).
    exact HN.
Qed.

Lemma pow_decay_pos (q : R) (n : nat) : 0 < q -> 0 < q ^ n.
Proof.
  intros Hq. now apply pow_lt.
Qed.

(** C1. For every subsystem and every fixed positive frame delta: from
    progress 0 in tree mode the progress sequence is strictly
    increasing, stays below 1 and converges to 1; from progress 1 in
    scattered mode it is strictly decreasing, stays above 0 and converges
    to 0; and from any progress in [0, 1] a frame moves progress toward
    the current target and never past it. *)
Theorem progress_monotone_convergent (s : Subsystem) (dt : R) :
  0 < dt ->
  (forall n, frames s TREE_SHAPE dt n 0 < frames s TREE_SHAPE dt (S n) 0
             /\ frames s TREE_SHAPE dt n 0 <= 1)
  /\ Un_cv (fun n => frames s TREE_SHAPE dt n 0) 1
  /\ (forall n, frames s SCATTERED dt (S n) 1 < frames s SCATTERED dt n 1
                /\ 0 <= frames s SCATTERED dt n 1)
  /\ Un_cv (fun n => frames s SCATTERED dt n 1) 0
  /\ (forall p, 0 <= p <= 1 ->
        p <= advance s TREE_SHAPE p dt <= 1
        /\ 0 <= advance s SCATTERED p dt <= p)
  /\ (forall p, 0 <= p < 1 -> p < advance s TREE_SHAPE p dt)
  /\ (forall p, 0 < p <= 1 -> advance s SCATTERED p dt < p).
Proof.
  intros Hdt.
  assert (0 <= dt) as Hdt0 by lra.
  assert (forall ts, 0 < exp (- (dampSpeed s ts * dt)) < 1) as Hq.
  { intros ts. apply decay_range.
    pose proof (dampSpeed_pos s ts). nra. }
  assert (0 <= 0 <= 1) as H01 by lra.
  assert (0 <= 1 <= 1) as H11 by lra.
  assert (target TREE_SHAPE = 1) as Ht by reflexivity.
  assert (target SCATTERED = 0) as Hs by reflexivity.
  split; [| split; [| split; [| split; [| split; [| split]]]]].
  - intros n.
    rewrite !(frames_closed_form s TREE_SHAPE dt _ 0 H01 Hdt0), Ht.
    pose proof (pow_decay_pos _ n (proj1 (Hq TREE_SHAPE))) as Hn.
    destruct (Hq TREE_SHAPE) as [Hq0 Hq1]. simpl. split; nra.
  - intros eps Heps.
    destruct (pow_decay_cv _ (-1) (Hq TREE_SHAPE) eps Heps) as [N HN].
    exists N. intros n Hn. specialize (HN n Hn).
    rewrite (frames_closed_form s TREE_SHAPE dt _ 0 H01 Hdt0), Ht.
    unfold R_dist in *.
    replace (1 + (0 - 1) * exp (- (dampSpeed s TREE_SHAPE * dt)) ^ n - 1)
      with (-1 * exp (- (dampSpeed s TREE_SHAPE * dt)) ^ n - 0) by ring.
    exact HN.
  - intros n.
    rewrite !(frames_closed_form s SCATTERED dt _ 1 H11 Hdt0), Hs.
    pose proof (pow_decay_pos _ n (proj1 (Hq SCATTERED))) as Hn.
    destruct (Hq SCATTERED) as [Hq0 Hq1]. simpl. split; nra.
  - intros eps Heps.
    destruct (pow_decay_cv _ 1 (Hq SCATTERED) eps Heps) as [N HN].
    exists N. intros n Hn. specialize (HN n Hn).
    rewrite (frames_closed_form s SCATTERED dt _ 1 H11 Hdt0), Hs.
    unfold R_dist in *.
    replace (0 + (1 - 0) * exp (- (dampSpeed s SCATTERED * dt)) ^ n - 0)
      with (1 * exp (- (dampSpeed s SCATTERED * dt)) ^ n - 0) by ring.
    exact HN.
  - intros p Hp.
    rewrite !advance_decay by assumption. rewrite Ht, Hs.
    destruct (Hq TREE_SHAPE), (Hq SCATTERED). split; split; nra.
  - intros p Hp.
    rewrite advance_decay by lra. rewrite Ht.
    destruct (Hq TREE_SHAPE). nra.
  - intros p Hp.
    rewrite advance_decay by lra. rewrite Hs.
    destruct (Hq SCATTERED). nra.
Qed.

Lemma progress_monotone_convergent_witness :
  frames StarTop TREE_SHAPE (1 / 60) 3 0 < frames StarTop TREE_SHAPE (1 / 60) 4 0
  /\ frames StarTop TREE_SHAPE (1 / 60) 3 0 <= 1.
Proof.
  assert (0 < 1 / 60) as Hdt by lra.
  exact (proj1 (progress_monotone_convergent StarTop (1 / 60) Hdt) 3%nat).
Defined.

Lemma run_cons (s : Subsystem) (ts : TreeState) (dt : R) (dts : list R)
  (p0 : R) :
  run s ts (dt :: dts) p0 = run s ts dts (advance s ts p0 dt).
Proof. reflexivity. Qed.

Lemma dispersal_rate_above_assembly (s : Subsystem) :
  dampSpeed s TREE_SHAPE < dampSpeed s SCATTERED.
Proof.
  destruct s; simpl; lra.
Qed.

(** One frame: a disperser no farther from 0 than an assembler is from 1
    ends strictly closer. *)
Lemma dispersal_step (s : Subsystem) (dt a b : R) :
  0 < dt -> 0 < a -> a <= 1 - b -> 0 <= b ->
  0 < advance s SCATTERED a dt
  /\ advance s SCATTERED a dt < 1 - advance s TREE_SHAPE b dt
  /\ 0 <= advance s TREE_SHAPE b dt.
Proof.
  intros Hdt Ha Hab Hb.
  rewrite !advance_decay by lra.
  change (target SCATTERED) with 0. change (target TREE_SHAPE) with 1.
  pose proof (dispersal_rate_above_assembly s) as Hrate.
  pose proof (dampSpeed_pos s TREE_SHAPE) as Hpos.
  assert (exp (- (dampSpeed s SCATTERED * dt))
          < exp (- (dampSpeed s TREE_SHAPE * dt))) as Hlt
    by (apply exp_increasing; nra).
  assert (0 < exp (- (dampSpeed s SCATTERED * dt))) as HqS by apply exp_pos.
  assert (0 < exp (- (dampSpeed s TREE_SHAPE * dt)) < 1) as HqT
    by (apply decay_range; nra).
  repeat split; nra.
Qed.

Lemma dispersal_run (s : Subsystem) (dts : list R) :
  Forall (fun dt => 0 < dt) dts ->
  forall a b, 0 < a -> a < 1 - b -> 0 <= b ->
  run s SCATTERED dts a < 1 - run s TREE_SHAPE dts b.
Proof.
  induction 1 as [| dt dts Hdt _ IH]; intros a b Ha Hab Hb.
  - exact Hab.
  - rewrite !run_cons.
    destruct (dispersal_step s dt a b Hdt Ha (Rlt_le _ _ Hab) Hb)
      as (H1 & H2 & H3).
    now apply IH.
Qed.

Lemma run_range (s : Subsystem) (ts : TreeState) (dts : list R) (p0 : R) :
  0 <= p0 <= 1 -> 0 <= run s ts dts p0 <= 1.
Proof.
  revert p0. induction dts as [| dt dts IH]; intros p0 Hp.
  - exact Hp.
  - rewrite run_cons. apply IH, advance_range.
Qed.

(** C8. Dispersal is faster than assembly. For every subsystem, from
    the same positive distance [d] to the target and under the same
    non-empty sequence of positive frame deltas, the progress damped
    toward 0 ends strictly closer to 0 than the progress damped toward 1
    ends to 1. *)
Theorem dispersal_faster_than_assembly (s : Subsystem) (dts : list R)
  (d : R) :
  dts <> [] ->
  Forall (fun dt => 0 < dt) dts ->
  0 < d <= 1 ->
  distance SCATTERED d = distance TREE_SHAPE (1 - d)
  /\ distance SCATTERED (run s SCATTERED dts d)
     < distance TREE_SHAPE (run s TREE_SHAPE dts (1 - d)).
Proof.
  intros Hne Hdts [Hd0 Hd1].
  unfold distance. change (target SCATTERED) with 0.
  change (target TREE_SHAPE) with 1.
  split; [replace (0 - d) with (- d) by ring; rewrite Rabs_Ropp; f_equal; ring |].
  assert (0 <= run s SCATTERED dts d <= 1) as HS by (apply run_range; lra).
  assert (0 <= run s TREE_SHAPE dts (1 - d) <= 1) as HT
    by (apply run_range; lra).
  rewrite Rabs_minus_sym, Rminus_0_r.
  rewrite !Rabs_pos_eq by lra.
  destruct dts as [| dt dts]; [congruence |].
  inversion Hdts as [| ? ? Hdt Hrest]; subst.
  rewrite !run_cons.
  assert (0 <= 1 - d) as Hb by lra.
  assert (d <= 1 - (1 - d)) as Hab by lra.
  destruct (dispersal_step s dt d (1 - d) Hdt Hd0 Hab Hb) as (H1 & H2 & H3).
  now apply dispersal_run.
Qed.

Lemma dispersal_faster_than_assembly_witness :
  distance SCATTERED (run Ornaments SCATTERED [1 / 60; 1 / 30] 1)
  < distance TREE_SHAPE (run Ornaments TREE_SHAPE [1 / 60; 1 / 30] (1 - 1)).
Proof.
  assert ([1 / 60; 1 / 30] <> []) as Hne by discriminate.
  assert (Forall (fun dt => 0 < dt) [1 / 60; 1 / 30]) as Hdts
    by (repeat constructor; lra).
  assert (0 < 1 <= 1) as Hd by lra.
  exact (proj2 (dispersal_faster_than_assembly Ornaments _ 1 Hne Hdts Hd)).
Defined.

(** ** The frame delta *)

Lemma Experience_camera_clamps (ts : TreeState) (pos : Vector3) (delta : R) :
  Experience_camera ts pos delta = Experience_camera ts pos (Rmin delta 0.1).
Proof.
  unfold Experience_camera, Math.min.
  assert (Rmin (Rmin delta 0.1) 0.1 = Rmin delta 0.1) as ->
    by (apply Rmin_left, Rmin_r).
  reflexivity.
Qed.

(** ** The camera *)

Lemma length_nonneg (v : Vector3) : 0 <= length v.
Proof. apply sqrt_pos. Qed.

Lemma length_zero (v : Vector3) : length v = 0 -> v = mkVector3 0 0 0.
Proof.
  intros H. unfold length in H. apply sqrt_eq_0 in H; [| nra].
  destruct v as [a b c]. simpl in H.
  assert (a = 0) by nra. assert (b = 0) by nra. assert (c = 0) by nra.
  now subst.
Qed.

Lemma length_multiplyScalar (k : R) (v : Vector3) :
  length (multiplyScalar k v) = Rabs k * length v.
Proof.
  unfold length, multiplyScalar. simpl.
  replace (x v * k * (x v * k) + y v * k * (y v * k) + z v * k * (z v * k))
    with (Rsqr k * (x v * x v + y v * y v + z v * z v))
    by (unfold Rsqr; ring).
  rewrite sqrt_mult; [| apply Rle_0_sqr | nra].
  now rewrite sqrt_Rsqr_abs.
Qed.

Lemma setLength_scales (l : R) (v : Vector3) :
  length v <> 0 -> setLength l v = multiplyScalar (l / length v) v.
Proof.
  intros Hv. unfold setLength, THREE.normalize, divideScalar, multiplyScalar.
  destruct (Req_dec_T (length v) 0) as [H0 | _]; [contradiction |].
  simpl. f_equal; field; exact Hv.
Qed.

Lemma setLength_origin (l : R) (v : Vector3) :
  length v = 0 -> setLength l v = v.
Proof.
  intros Hv. rewrite (length_zero v Hv).
  unfold setLength, THREE.normalize, divideScalar, multiplyScalar. simpl.
  f_equal; ring.
Qed.

Lemma multiplyScalar_one (v : Vector3) : multiplyScalar 1 v = v.
Proof.
  destruct v. unfold multiplyScalar. simpl. f_equal; ring.
Qed.

Lemma length_on_axis (c : R) : 0 <= c -> length (mkVector3 0 0 c) = c.
Proof.
  intros Hc. unfold length. simpl.
  replace (0 * 0 + 0 * 0 + c * c) with (Rsqr c) by (unfold Rsqr; ring).
  now apply sqrt_Rsqr.
Qed.

(** C6. One frame of the camera, with [d] the distance of the camera
    from the origin, [D] the distance its mode selects and [dt] the
    clamped frame delta: the position changes only when [|D - d|]
    exceeds 0.1, and then the new distance is [d + (D - d) * dt * 2.5];
    the position after the frame is always a non-negative multiple of
    the position before it; and the update is applied whenever
    [|D - d| > 0.1] and the new distance is above 0.1. *)
Theorem camera_rescales_view_vector (ts : TreeState) (pos : Vector3)
  (delta : R) :
  let d := length pos in
  let D := targetDist ts in
  let dt := Rmin delta 0.1 in
  let pos' := Experience_camera ts pos delta in
  (pos' = pos
   \/ (0.1 < Rabs (D - d) /\ length pos' = d + (D - d) * dt * 2.5))
  /\ (exists k, 0 <= k /\ pos' = multiplyScalar k pos)
  /\ (Rabs (D - d) <= 0.1 -> pos' = pos)
  /\ (0.1 < Rabs (D - d) -> 0.1 < d + (D - d) * dt * 2.5 -> d <> 0 ->
      length pos' = d + (D - d) * dt * 2.5
      /\ pos' = multiplyScalar ((d + (D - d) * dt * 2.5) / d) pos).
Proof.
  intros d D dt pos'.
  pose proof (length_nonneg pos) as Hd. fold d in Hd.
  assert (pos' =
          if Rlt_dec 0.1 (Rabs (D - d)) then
            if Rlt_dec 0.1 (d + (D - d) * dt * 2.5)
            then setLength (d + (D - d) * dt * 2.5) pos else pos
          else pos) as Hpos' by reflexivity.
  assert (d <> 0 -> 0.1 < d + (D - d) * dt * 2.5 ->
          length (setLength (d + (D - d) * dt * 2.5) pos)
          = d + (D - d) * dt * 2.5) as Hlen.
  { intros Hd0 Hnew. rewrite setLength_scales by exact Hd0.
    rewrite length_multiplyScalar. fold d.
    rewrite Rabs_pos_eq.
    - field. exact Hd0.
    - apply Rlt_le, Rdiv_lt_0_compat; lra. }
  assert ((pos' = pos
           /\ (Rabs (D - d) <= 0.1 \/ d + (D - d) * dt * 2.5 <= 0.1 \/ d = 0))
          \/ (0.1 < Rabs (D - d) /\ 0.1 < d + (D - d) * dt * 2.5 /\ d <> 0
              /\ pos' = setLength (d + (D - d) * dt * 2.5) pos)) as Hcases.
  { rewrite Hpos'.
    destruct (Rlt_dec 0.1 (Rabs (D - d))) as [Hfar | Hnear];
      [| left; split; [reflexivity | left; lra]].
    destruct (Rlt_dec 0.1 (d + (D - d) * dt * 2.5)) as [Hnew | Hsmall];
      [| left; split; [reflexivity | right; left; lra]].
    destruct (Req_dec d 0) as [Hd0 | Hd0].
    - left. split; [now apply setLength_origin | now right; right].
    - right. repeat split; assumption. }
  clear Hpos'.
  destruct Hcases as [[Hsame Hwhy] | (Hfar & Hnew & Hd0 & Hset)].
  - split; [now left |].
    split; [exists 1; split; [lra | now rewrite multiplyScalar_one] |].
    split; [intros _; exact Hsame |].
    intros Hfar Hnew Hd0. exfalso. lra.
  - split; [right; split; [exact Hfar | rewrite Hset; now apply Hlen] |].
    split.
    { exists ((d + (D - d) * dt * 2.5) / d). split.
      - apply Rlt_le, Rdiv_lt_0_compat; lra.
      - rewrite Hset. now apply setLength_scales. }
    split; [intros Hle; exfalso; lra |].
    intros _ _ _. split.
    + rewrite Hset. now apply Hlen.
    + rewrite Hset. now apply setLength_scales.
Qed.

Lemma camera_rescales_view_vector_witness :
  length (Experience_camera SCATTERED (mkVector3 0 0 33) (1 / 60))
  = 33 + (5 - 33) * (1 / 60) * 2.5
  /\ Experience_camera TREE_SHAPE (mkVector3 0 0 33) (1 / 60)
     = mkVector3 0 0 33.
Proof.
  assert (length (mkVector3 0 0 33) = 33) as Hlen
    by (apply length_on_axis; lra).
  assert (Rmin (1 / 60) 0.1 = 1 / 60) as Hmin by (apply Rmin_left; lra).
  pose proof (camera_rescales_view_vector SCATTERED (mkVector3 0 0 33) (1 / 60))
    as Hs.
  pose proof (camera_rescales_view_vector TREE_SHAPE (mkVector3 0 0 33) (1 / 60))
    as Ht.
  cbv zeta in Hs, Ht. rewrite Hlen, ?Hmin in Hs, Ht.
  change (targetDist SCATTERED) with 5 in Hs.
  change (targetDist TREE_SHAPE) with 33 in Ht.
  destruct Hs as (_ & _ & _ & Hmove).
  destruct Ht as (_ & _ & Hstay & _).
  split.
  - apply Hmove.
    + rewrite Rabs_left by lra. lra.
    + lra.
    + lra.
  - apply Hstay. rewrite Rabs_pos_eq by lra. lra.
Defined.

(** ** The blended positions *)

Lemma blend_lerpVectors (e : Entity) (progress : R) :
  lerpVectors (scatterPos e) (treePos e) progress = blend e progress.
Proof. reflexivity. Qed.




(** The highlight factor of that frame is the one a highlighted
    gingerbread man has after a single frame of [ln 2 / 3] seconds. *)
Lemma highlight_reached_in_one_frame :
  GingerbreadMan_mode true 0 (ln 2 / 3) = m highlight_frame.
Proof.
  pose proof ln_lt_2 as Hln.
  unfold GingerbreadMan_mode. rewrite damp_decay by lra.
  replace (3.0 * (ln 2 / 3)) with (ln 2) by lra.
  rewrite exp_Ropp, exp_ln by lra. simpl. lra.
Qed.



(** ** The burst scheduler *)

Module BurstProofs.

Import Burst.
Local Open Scope Z_scope.

Lemma commit_scattered (c : Component) :
  invariant c ->
  commit SCATTERED c
  = mkComponent SCATTERED 2.0%R [mkTimer (nextId c) (now c + 3000)]
      (Some (nextId c)) (now c) (S (nextId c)).
Proof.
  destruct c as [ts b tm cl nw nid]. unfold invariant. simpl.
  destruct tm as [| t [| t' tm]]; [| | contradiction].
  - intros _. unfold commit, runCleanup. simpl.
    destruct cl; reflexivity.
  - intros (_ & -> & _ & _). unfold commit, runCleanup, clearTimeout.
    simpl. now rewrite Nat.eqb_refl.
Qed.

Lemma commit_tree (c : Component) :
  invariant c ->
  commit TREE_SHAPE c
  = mkComponent TREE_SHAPE 1.0%R [] None (now c) (nextId c).
Proof.
  destruct c as [ts b tm cl nw nid]. unfold invariant. simpl.
  destruct tm as [| t [| t' tm]]; [| | contradiction].
  - intros _. unfold commit, runCleanup. simpl.
    destruct cl; reflexivity.
  - intros (_ & -> & _ & _). unfold commit, runCleanup, clearTimeout.
    simpl. now rewrite Nat.eqb_refl.
Qed.

Lemma elapse_idle (ms : Z) (c : Component) :
  timers c = [] ->
  elapse ms c
  = mkComponent (treeState c) (burstRef c) [] (cleanup c) (now c + ms)
      (nextId c).
Proof.
  intros H. unfold elapse. now rewrite H.
Qed.

Lemma elapse_before_due (ms : Z) (c : Component) (t : Timer) :
  timers c = [t] -> now c + ms < due t ->
  elapse ms c
  = mkComponent (treeState c) (burstRef c) [t] (cleanup c) (now c + ms)
      (nextId c).
Proof.
  intros H Hlt. unfold elapse. rewrite H. simpl.
  assert ((due t <=? now c + ms) = false) as -> by (apply Z.leb_gt; lia).
  reflexivity.
Qed.

Lemma elapse_after_due (ms : Z) (c : Component) (t : Timer) :
  timers c = [t] -> due t <= now c + ms ->
  elapse ms c
  = mkComponent (treeState c) 1.0%R [] (cleanup c) (now c + ms) (nextId c).
Proof.
  intros H Hle. unfold elapse. rewrite H. simpl.
  assert ((due t <=? now c + ms) = true) as -> by (apply Z.leb_le; lia).
  reflexivity.
Qed.

Lemma invariant_mount (ts : TreeState) : invariant (mount ts).
Proof.
  destruct ts; unfold invariant, mount, effect; simpl.
  - repeat split; try lia. lra.
  - lra.
Qed.

Lemma invariant_commit (ts : TreeState) (c : Component) :
  invariant c -> invariant (commit ts c).
Proof.
  intros H. destruct ts.
  - rewrite commit_scattered by exact H. unfold invariant. simpl.
    repeat split; try lia. lra.
  - rewrite commit_tree by exact H. unfold invariant. simpl. lra.
Qed.

Lemma invariant_render (ts : TreeState) (c : Component) :
  invariant c -> invariant (render ts c).
Proof.
  intros H. unfold render.
  destruct (TreeState_eqb ts (treeState c)); [exact H |].
  now apply invariant_commit.
Qed.

Lemma invariant_elapse (ms : Z) (c : Component) :
  0 <= ms -> invariant c -> invariant (elapse ms c).
Proof.
  intros Hms H. unfold invariant in H.
  destruct (timers c) as [| t [| t' tm]] eqn:Htm; [| | contradiction].
  - rewrite elapse_idle by exact Htm. unfold invariant. simpl. exact H.
  - destruct H as (Hb & Hc & Hdue & Hts).
    destruct (Z_lt_le_dec (now c + ms) (due t)) as [Hlt | Hle].
    + rewrite (elapse_before_due ms c t Htm Hlt). unfold invariant. simpl.
      repeat split; try assumption; lia.
    + rewrite (elapse_after_due ms c t Htm Hle). unfold invariant. simpl.
      lra.
Qed.

Lemma reachable_invariant (c : Component) : reachable c -> invariant c.
Proof.
  induction 1 as [ts | ts c _ IH | ms c Hms _ IH].
  - apply invariant_mount.
  - now apply invariant_render.
  - now apply invariant_elapse.
Qed.


(** A freshly armed burst: the multiplier is 2 until three seconds have
    passed and 1 from then on. *)
Lemma burst_window (c : Component) (id : nat) :
  timers c = [mkTimer id (now c + 3000)] -> burstRef c = 2%R ->
  (forall ms, 0 <= ms < 3000 ->
     multiplier (elapse ms c) = 2%R /\ mode (elapse ms c) = BURST)
  /\ (forall ms, 3000 <= ms ->
        multiplier (elapse ms c) = 1%R /\ mode (elapse ms c) = NORMAL).
Proof.
  intros Htm Hb. split; intros ms Hms.
  - rewrite (elapse_before_due ms c _ Htm) by (simpl; lia).
    unfold multiplier, mode. simpl. now split.
  - rewrite (elapse_after_due ms c _ Htm) by (simpl; lia).
    unfold multiplier, mode. simpl. split; [lra | reflexivity].
Qed.

Lemma commit_scattered_window (c : Component) :
  invariant c ->
  let c' := commit SCATTERED c in
  multiplier c' = 2%R /\ mode c' = BURST
  /\ timers c' = [mkTimer (nextId c) (now c + 3000)]
  /\ (forall ms, 0 <= ms < 3000 ->
        multiplier (elapse ms c') = 2%R /\ mode (elapse ms c') = BURST)
  /\ (forall ms, 3000 <= ms ->
        multiplier (elapse ms c') = 1%R /\ mode (elapse ms c') = NORMAL).
Proof.
  intros H c'. unfold c'. rewrite (commit_scattered c H).
  split; [unfold multiplier; simpl; lra |].
  split; [reflexivity |].
  split; [reflexivity |].
  apply (burst_window _ (nextId c)); simpl; [reflexivity | lra].
Qed.

Lemma render_from_tree (c : Component) :
  treeState c = TREE_SHAPE -> render SCATTERED c = commit SCATTERED c.
Proof.
  intros H. unfold render. now rewrite H.
Qed.

Lemma render_from_scattered (c : Component) :
  treeState c = SCATTERED -> render TREE_SHAPE c = commit TREE_SHAPE c.
Proof.
  intros H. unfold render. now rewrite H.
Qed.

Lemma invariant_tree_idle (c : Component) :
  invariant c -> treeState c = TREE_SHAPE ->
  timers c = [] /\ burstRef c = 1%R.
Proof.
  unfold invariant. intros H Hts.
  destruct (timers c) as [| t [| t' tm]]; [| | contradiction].
  - now split.
  - destruct H as (_ & _ & _ & Hs). congruence.
Qed.

(** C5. The burst scheduler of [StarTop] and [Ornaments] in every
    reachable state [c]: at most one timeout is pending and the
    scheduler is either NORMAL with multiplier 1 or BURST with
    multiplier 2; in tree mode it is NORMAL; when the mode becomes
    SCATTERED the multiplier is 2 at once, stays 2 for every delay short
    of 3000 ms and is 1 from 3000 ms on; a render back to tree mode
    makes it 1 with nothing pending; and re-running the effect for
    SCATTERED while a burst is pending, directly or by way of tree mode
    after any gap, leaves exactly one timeout, due 3000 ms after this
    newest trigger. *)
Theorem burst_two_state_machine (c : Component) :
  reachable c ->
  (List.length (timers c) <= 1)%nat
  /\ (mode c = NORMAL /\ multiplier c = 1%R
      \/ mode c = BURST /\ multiplier c = 2%R)
  /\ (treeState c = TREE_SHAPE -> mode c = NORMAL /\ multiplier c = 1%R)
  /\ (treeState c = TREE_SHAPE ->
      let c' := render SCATTERED c in
      multiplier c' = 2%R /\ mode c' = BURST
      /\ timers c' = [mkTimer (nextId c) (now c + 3000)]
      /\ (forall ms, 0 <= ms < 3000 ->
            multiplier (elapse ms c') = 2%R /\ mode (elapse ms c') = BURST)
      /\ (forall ms, 3000 <= ms ->
            multiplier (elapse ms c') = 1%R /\ mode (elapse ms c') = NORMAL))
  /\ (multiplier (render TREE_SHAPE c) = 1%R
      /\ timers (render TREE_SHAPE c) = [])
  /\ (mode c = BURST ->
      let c' := commit SCATTERED c in
      multiplier c' = 2%R /\ mode c' = BURST
      /\ timers c' = [mkTimer (nextId c) (now c + 3000)]
      /\ (forall ms, 0 <= ms < 3000 ->
            multiplier (elapse ms c') = 2%R /\ mode (elapse ms c') = BURST)
      /\ (forall ms, 3000 <= ms ->
            multiplier (elapse ms c') = 1%R /\ mode (elapse ms c') = NORMAL))
  /\ (mode c = BURST -> forall gap, 0 <= gap ->
      let c' := render SCATTERED (elapse gap (render TREE_SHAPE c)) in
      multiplier c' = 2%R
      /\ timers c' = [mkTimer (nextId c) (now c + gap + 3000)]
      /\ (forall ms, 0 <= ms < 3000 ->
            multiplier (elapse ms c') = 2%R /\ mode (elapse ms c') = BURST)
      /\ (forall ms, 3000 <= ms ->
            multiplier (elapse ms c') = 1%R /\ mode (elapse ms c') = NORMAL)).
Proof.
  intros Hreach.
  pose proof (reachable_invariant c Hreach) as Hinv.
  assert (mode c = BURST -> treeState c = SCATTERED) as Hburst.
  { unfold mode. unfold invariant in Hinv.
    destruct (timers c) as [| t [| t' tm]]; [discriminate | | contradiction].
    intros _. now destruct Hinv as (_ & _ & _ & Hs). }
  split; [| split; [| split; [| split; [| split; [| split]]]]].
  - unfold invariant in Hinv.
    destruct (timers c) as [| t [| t' tm]]; simpl; [lia | lia | contradiction].
  - unfold mode, multiplier. unfold invariant in Hinv.
    destruct (timers c) as [| t [| t' tm]]; [| | contradiction].
    + now left.
    + right. now destruct Hinv as (Hb & _).
  - intros Hts. destruct (invariant_tree_idle c Hinv Hts) as [Htm Hb].
    unfold mode, multiplier. now rewrite Htm.
  - intros Hts. rewrite (render_from_tree c Hts).
    now apply commit_scattered_window.
  - destruct (treeState c) eqn:Hts.
    + rewrite (render_from_scattered c Hts), (commit_tree c Hinv).
      unfold multiplier. simpl. split; [lra | reflexivity].
    + destruct (invariant_tree_idle c Hinv Hts) as [Htm Hb].
      unfold render. rewrite Hts. simpl. now split.
  - intros _. now apply commit_scattered_window.
  - intros Hmode gap Hgap.
    pose proof (Hburst Hmode) as Hts.
    assert (reachable (elapse gap (render TREE_SHAPE c))) as Hr
      by (apply reach_elapse; [exact Hgap | now apply reach_render]).
    pose proof (reachable_invariant _ Hr) as Hinv'.
    assert (elapse gap (render TREE_SHAPE c)
            = mkComponent TREE_SHAPE 1.0%R [] None (now c + gap) (nextId c))
      as Hstate.
    { rewrite (render_from_scattered c Hts), (commit_tree c Hinv).
      now rewrite elapse_idle. }
    rewrite render_from_tree by (rewrite Hstate; reflexivity).
    destruct (commit_scattered_window _ Hinv') as (H1 & H2 & H3 & H4 & H5).
    assert (nextId (elapse gap (render TREE_SHAPE c)) = nextId c) as Hn
      by now rewrite Hstate.
    assert (now (elapse gap (render TREE_SHAPE c)) = now c + gap) as Hw
      by now rewrite Hstate.
    rewrite Hn, Hw in H3.
    split; [exact H1 |]. split; [exact H3 |]. split; [exact H4 | exact H5].
Qed.

Lemma burst_two_state_machine_witness :
  multiplier (elapse 2999 (render SCATTERED (mount TREE_SHAPE))) = 2%R
  /\ multiplier (elapse 3000 (render SCATTERED (mount TREE_SHAPE))) = 1%R.
Proof.
  pose proof (burst_two_state_machine (mount TREE_SHAPE)
                (reach_mount TREE_SHAPE)) as H.
  destruct H as (_ & _ & _ & Htrigger & _).
  destruct (Htrigger eq_refl) as (_ & _ & _ & Hin & Hout).
  assert (0 <= 2999 < 3000) as Hlt by lia.
  assert (3000 <= 3000) as Hle by lia.
  split.
  - exact (proj1 (Hin 2999 Hlt)).
  - exact (proj1 (Hout 3000 Hle)).
Defined.

End BurstProofs.

(* ================================================================= *)
(** * Further properties of the components *)

(** ** The generators, once more *)

Lemma sphere_point_norm (radius : R) (g : RandomSource) :
  0 <= radius -> unit_draws g ->
  length (fst (getRandomSpherePoint radius g))
  = Math.cbrt (draws g (S (S (cursor g)))) * radius.
Proof.
  intros Hr Hg. destruct (Hg (S (S (cursor g)))) as [Hw0 Hw1].
  unfold getRandomSpherePoint, random. simpl.
  apply sphere_point_length.
  pose proof (cbrt_nonneg _ Hw0). nra.
Qed.

Lemma sphere_point_inside (radius : R) (g : RandomSource) :
  0 <= radius -> unit_draws g ->
  length (fst (getRandomSpherePoint radius g)) <= radius.
Proof.
  intros Hr Hg. rewrite sphere_point_norm by assumption.
  destruct (Hg (S (S (cursor g)))) as [Hw0 Hw1].
  pose proof (cbrt_nonneg _ Hw0).
  pose proof (cbrt_lt_1 _ (conj Hw0 Hw1)). nra.
Qed.

Lemma getRandomSpherePoint_source (radius : R) (g : RandomSource) :
  snd (getRandomSpherePoint radius g)
  = mkRandomSource (draws g) (3 + cursor g).
Proof. reflexivity. Qed.

Lemma getTreeSpiralPoint_source (t maxRadius height spirals jitter : R)
  (g : RandomSource) :
  snd (getTreeSpiralPoint t maxRadius height spirals jitter g)
  = mkRandomSource (draws g) (3 + cursor g).
Proof. reflexivity. Qed.

Lemma tree_point_near_helix (t maxRadius height spirals jitter : R)
  (g : RandomSource) :
  0 <= jitter -> unit_draws g ->
  within (jitter / 2)
    (add (fst (getTreeSpiralPoint t maxRadius height spirals jitter g))
         (multiplyScalar (-1) (helix t maxRadius height spirals))).
Proof.
  intros Hj Hg.
  unfold within, getTreeSpiralPoint, helix, random, add, multiplyScalar.
  simpl.
  replace (t * PI * 2 * spirals) with (2 * PI * spirals * t) by ring.
  repeat split.
  - replace (_ + _ * -1) with ((draws g (cursor g) - 0.5) * jitter) by ring.
    now apply jitter_offset_bound.
  - replace (_ + _ * -1) with ((draws g (S (cursor g)) - 0.5) * jitter)
      by ring.
    now apply jitter_offset_bound.
  - replace (_ + _ * -1) with ((draws g (S (S (cursor g))) - 0.5) * jitter)
      by ring.
    now apply jitter_offset_bound.
Qed.

(** ** [Ornaments]: the data *)

Lemma Ornaments_item_source (type : OrnamentType) (minT maxT : R) (i : nat)
  (g : RandomSource) :
  snd (Ornaments_item type minT maxT i g)
  = mkRandomSource (draws g) (12 + cursor g).
Proof. reflexivity. Qed.

Lemma Ornaments_item_fields (type : OrnamentType) (minT maxT : R) (i : nat)
  (g : RandomSource) :
  let c := cursor g in
  let t := minT + draws g c * (maxT - minT) in
  let item := fst (Ornaments_item type minT maxT i g) in
  Orn.treePos item
  = fst (getTreeSpiralPoint t 5.5 13 15 1.2 (mkRandomSource (draws g) (1 + c)))
  /\ Orn.scatterPos item
     = fst (getRandomSpherePoint 14 (mkRandomSource (draws g) (5 + c)))
  /\ Orn.rotationSpeed item
     = mkVector3 ((draws g (8 + c)%nat - 0.5) * 0.01)
                 ((draws g (9 + c)%nat - 0.5) * 0.01)
                 ((draws g (10 + c)%nat - 0.5) * 0.01)
  /\ Orn.phase item = draws g (11 + c)%nat * PI * 2
  /\ Orn.baseScale item
     = (match type with box => 0.2 + draws g (4 + c)%nat * 0.2
                      | sphere => 0.15 + draws g (4 + c)%nat * 0.15
                      | diamond => 0.1 + draws g (4 + c)%nat * 0.1 end)
       * (if Nat.eqb (Nat.modulo i 2) 0 then 1.35 else 1.0)
       * (if Rlt_dec 0.66 t then 1.0 else 1.25).
Proof.
  intros c t item. unfold item, Ornaments_item, random. simpl.
  repeat split. destruct type; reflexivity.
Qed.

Lemma Ornaments_item_holds (type : OrnamentType) (minT maxT : R) (i : nat)
  (g : RandomSource) :
  unit_draws g -> minT <= maxT ->
  Ornaments_item_ok type minT maxT (fst (Ornaments_item type minT maxT i g)).
Proof.
  intros Hg Hrange.
  destruct (Ornaments_item_fields type minT maxT i g)
    as (Htree & Hscatter & Hrot & Hphase & Hscale).
  cbv zeta in Htree, Hscale.
  set (c := cursor g) in *.
  set (item := fst (Ornaments_item type minT maxT i g)) in *.
  assert (forall k, unit_draws (mkRandomSource (draws g) k)) as Hg'
    by (intros k n; apply Hg).
  unfold Ornaments_item_ok.
  split; [| split; [| split; [| split]]].
  - rewrite Hscatter. apply sphere_point_inside; [lra | apply Hg'].
  - exists (minT + draws g c * (maxT - minT)). split.
    + destruct (Hg c). split; nra.
    + rewrite Htree. replace 0.6 with (1.2 / 2) by lra.
      apply tree_point_near_helix; [lra | apply Hg'].
  - rewrite Hrot. unfold within. cbn [x y z].
    destruct (Hg (8 + c)%nat), (Hg (9 + c)%nat), (Hg (10 + c)%nat).
    repeat split; apply Rabs_le; split; lra.
  - rewrite Hphase. destruct (Hg (11 + c)%nat). pose proof PI_RGT_0.
    split; nra.
  - rewrite Hscale. destruct (Hg (4 + c)%nat) as [Hs0 Hs1].
    destruct type, (Nat.eqb (Nat.modulo i 2) 0),
      (Rlt_dec 0.66 (minT + draws g c * (maxT - minT))); split; nra.
Qed.

Lemma unit_draws_source (g : RandomSource) (k : nat) :
  unit_draws g -> unit_draws (mkRandomSource (draws g) k).
Proof.
  intros Hg n. apply Hg.
Qed.

Lemma Ornaments_loop_count (type : OrnamentType) (minT maxT : R) (n : nat) :
  forall i g,
  List.length (fst (Ornaments_loop type minT maxT n i g)) = n
  /\ snd (Ornaments_loop type minT maxT n i g)
     = mkRandomSource (draws g) (12 * n + cursor g).
Proof.
  induction n as [| n IH]; intros i g.
  - split; [reflexivity |]. destruct g as [d c]. reflexivity.
  - cbn [Ornaments_loop].
    pose proof (Ornaments_item_source type minT maxT i g) as Hsrc.
    destruct (Ornaments_item type minT maxT i g) as [item g1].
    unfold snd in Hsrc. subst g1.
    specialize (IH (S i) (mkRandomSource (draws g) (12 + cursor g))).
    destruct (Ornaments_loop type minT maxT n (S i)
                (mkRandomSource (draws g) (12 + cursor g))) as [items g2].
    destruct IH as [Hlen Hg2]. unfold fst, snd in *.
    split; [cbn [List.length]; now rewrite Hlen |].
    rewrite Hg2. cbn [draws cursor]. f_equal. lia.
Qed.

(** X4. The loop pushes one item for every index and takes twelve draws for
    each, leaving the stream itself as it was. *)
Theorem Ornaments_data_count (count : nat) (type : OrnamentType)
  (minT maxT : R) (g : RandomSource) :
  List.length (fst (Ornaments_data count type minT maxT g)) = count
  /\ snd (Ornaments_data count type minT maxT g)
     = mkRandomSource (draws g) (12 * count + cursor g).
Proof.
  apply Ornaments_loop_count.
Qed.

Lemma Ornaments_loop_ok (type : OrnamentType) (minT maxT : R) (n : nat) :
  minT <= maxT ->
  forall i g, unit_draws g ->
  Forall (Ornaments_item_ok type minT maxT)
         (fst (Ornaments_loop type minT maxT n i g)).
Proof.
  intros Hrange. induction n as [| n IH]; intros i g Hg.
  - constructor.
  - cbn [Ornaments_loop].
    pose proof (Ornaments_item_source type minT maxT i g) as Hsrc.
    pose proof (Ornaments_item_holds type minT maxT i g Hg Hrange) as Hok.
    destruct (Ornaments_item type minT maxT i g) as [item g1].
    unfold snd in Hsrc. unfold fst in Hok. subst g1.
    specialize (IH (S i) _ (unit_draws_source g (12 + cursor g) Hg)).
    destruct (Ornaments_loop type minT maxT n (S i)
                (mkRandomSource (draws g) (12 + cursor g))) as [items g2].
    simpl in *. now constructor.
Qed.

(** X5. For draws in [0, 1) and a range [minT <= maxT], every ornament of
    [data] is scattered within 14 of the origin, sits within 0.6 per
    coordinate of the helix point of some height in the range, spins by
    at most 0.005 per axis and frame, has its phase in [0, 2 PI) and a
    base scale within the bounds of its type. *)
Theorem Ornaments_data_bounds (count : nat) (type : OrnamentType)
  (minT maxT : R) (g : RandomSource) :
  unit_draws g -> minT <= maxT ->
  Forall (Ornaments_item_ok type minT maxT)
         (fst (Ornaments_data count type minT maxT g)).
Proof.
  intros Hg Hrange. now apply Ornaments_loop_ok.
Qed.

Lemma Ornaments_data_bounds_witness :
  Forall (Ornaments_item_ok box 0 0.45)
         (fst (Ornaments_data 30 box 0 0.45 (constant_source (1 / 4)))).
Proof.
  assert (unit_draws (constant_source (1 / 4))) as Hg
    by (intros n; simpl; lra).
  assert (0 <= 0.45) as Hr by lra.
  exact (Ornaments_data_bounds 30 box 0 0.45 _ Hg Hr).
Defined.

(** ** [Ornaments]: the instance loop *)

Lemma Ornaments_forEach_cons (time p burstMult scaleFactor : R)
  (rot : Vector3) (item : Orn.OrnamentData) (rest : list Orn.OrnamentData)
  (i : nat) :
  Ornaments_forEach time p burstMult scaleFactor rot (item :: rest) i
  = (fst (Ornaments_forEach time p burstMult scaleFactor
            (fst (Ornaments_forEach_body time p burstMult scaleFactor
                    rot item i)) rest (S i)),
     snd (Ornaments_forEach_body time p burstMult scaleFactor rot item i)
     :: snd (Ornaments_forEach time p burstMult scaleFactor
               (fst (Ornaments_forEach_body time p burstMult scaleFactor
                       rot item i)) rest (S i))).
Proof.
  cbn [Ornaments_forEach].
  destruct (Ornaments_forEach_body time p burstMult scaleFactor rot item i)
    as [rot1 inst].
  cbn [fst snd].
  now destruct (Ornaments_forEach time p burstMult scaleFactor rot1 rest (S i)).
Qed.

Lemma add_speed (rot acc : Vector3) (item : Orn.OrnamentData) (b : R) :
  add (mkVector3 (x rot + x (Orn.rotationSpeed item) * b)
                 (y rot + y (Orn.rotationSpeed item) * b)
                 (z rot + z (Orn.rotationSpeed item) * b))
      (multiplyScalar b acc)
  = add rot (multiplyScalar b (add (Orn.rotationSpeed item) acc)).
Proof.
  unfold add, multiplyScalar. simpl. f_equal; ring.
Qed.

Lemma add_origin (v : Vector3) (b : R) :
  add v (multiplyScalar b (mkVector3 0 0 0)) = v.
Proof.
  destruct v. unfold add, multiplyScalar. simpl. f_equal; ring.
Qed.

(** X6. The instances of one frame share [tempObj]: the rotation written
    for the [k]-th item is the rotation [tempObj] had when the frame
    began plus [burstMult] times the sum of the speeds of the items up
    to and including the [k]-th, and the rotation left for the next
    frame is the initial one plus [burstMult] times the sum over all
    items.  The frame delta plays no part in it. *)
Theorem Ornaments_rotation_is_shared (time p burstMult scaleFactor : R)
  (data : list Orn.OrnamentData) (rot : Vector3) (i : nat) :
  let out := Ornaments_forEach time p burstMult scaleFactor rot data i in
  fst out = add rot (multiplyScalar burstMult (speedSum data))
  /\ List.length (snd out) = List.length data
  /\ (forall k inst, nth_error (snd out) k = Some inst ->
        Orn.rotation inst
        = add rot (multiplyScalar burstMult (speedSum (firstn (S k) data)))).
Proof.
  revert rot i. induction data as [| item rest IH]; intros rot i out.
  - unfold out. cbn. split; [now rewrite add_origin |].
    split; [reflexivity |]. intros [| k] inst H; discriminate.
  - unfold out. rewrite Ornaments_forEach_cons. cbn [fst snd].
    set (rot1 := fst (Ornaments_forEach_body time p burstMult scaleFactor
                        rot item i)).
    assert (rot1 = mkVector3 (x rot + x (Orn.rotationSpeed item) * burstMult)
                             (y rot + y (Orn.rotationSpeed item) * burstMult)
                             (z rot + z (Orn.rotationSpeed item) * burstMult))
      as Hrot1 by reflexivity.
    destruct (IH rot1 (S i)) as (Hfst & Hlen & Hnth).
    split; [| split].
    + rewrite Hfst, Hrot1. cbn [speedSum fold_right]. apply add_speed.
    + cbn [List.length]. now rewrite Hlen.
    + intros [| k] inst H.
      * cbn in H. injection H as <-. cbn [Orn.rotation].
        cbn [firstn speedSum fold_right].
        unfold add, multiplyScalar. simpl. f_equal; ring.
      * cbn [nth_error] in H. rewrite (Hnth k inst H), Hrot1.
        change (firstn (S (S k)) (item :: rest))
          with (item :: firstn (S k) rest).
        cbn [speedSum fold_right]. apply add_speed.
Qed.

(** X7. For a progress in [0, 1] and non-negative base scale and scale
    factor, the scale written for an item lies between 0.57 and 1.05
    times [baseScale * scaleFactor]. *)
Theorem Ornaments_scale_bounds (time p burstMult scaleFactor : R)
  (rot : Vector3) (item : Orn.OrnamentData) (i : nat) :
  0 <= p <= 1 -> 0 <= scaleFactor -> 0 <= Orn.baseScale item ->
  let inst :=
    snd (Ornaments_forEach_body time p burstMult scaleFactor rot item i) in
  0.57 * (Orn.baseScale item * scaleFactor) <= Orn.scale inst
  /\ Orn.scale inst <= 1.05 * (Orn.baseScale item * scaleFactor).
Proof.
  intros Hp Hsf Hb inst. unfold inst, Ornaments_forEach_body.
  cbn [snd Orn.scale].
  pose proof (SIN_bound (time * 2 + Orn.phase item)) as Hsin.
  set (s := sin (time * 2 + Orn.phase item)) in *.
  assert (0 <= Orn.baseScale item * scaleFactor) as Hc by nra.
  set (c := Orn.baseScale item * scaleFactor) in *.
  assert (0.57 <= (1 + s * 0.05) * (0.6 + 0.4 * p) <= 1.05) as Hk by nra.
  replace (c * (1 + s * 0.05) * (0.6 + 0.4 * p))
    with (c * ((1 + s * 0.05) * (0.6 + 0.4 * p))) by ring.
  split; nra.
Qed.

Lemma Ornaments_scale_bounds_witness :
  0.57 * (0.2 * 0.8)
  <= Orn.scale (snd (Ornaments_forEach_body 0 1 1 0.8 (mkVector3 0 0 0)
                       (Orn.mkOrnamentData (mkVector3 0 0 0) (mkVector3 0 0 0)
                          (mkVector3 0 0 0) 0.2 0) 0)).
Proof.
  assert (0 <= 1 <= 1) as Hp by lra.
  assert (0 <= 0.8) as Hsf by lra.
  assert (0 <= 0.2) as Hb by lra.
  exact (proj1 (Ornaments_scale_bounds 0 1 1 0.8 (mkVector3 0 0 0)
                  (Orn.mkOrnamentData (mkVector3 0 0 0) (mkVector3 0 0 0)
                     (mkVector3 0 0 0) 0.2 0) 0 Hp Hsf Hb)).
Defined.

Lemma Ornaments_rotation_is_shared_witness :
  Orn.rotation
    (snd (Ornaments_forEach_body 0 1 2 1 (mkVector3 0 0 0)
            (Orn.mkOrnamentData (mkVector3 0 0 0) (mkVector3 0 0 0)
               (mkVector3 0.005 0 0) 0.2 0) 0))
  = add (mkVector3 0 0 0)
        (multiplyScalar 2
           (speedSum
              (firstn 1 [Orn.mkOrnamentData (mkVector3 0 0 0) (mkVector3 0 0 0)
                           (mkVector3 0.005 0 0) 0.2 0]))).
Proof.
  exact (proj2 (proj2 (Ornaments_rotation_is_shared 0 1 2 1
                         [Orn.mkOrnamentData (mkVector3 0 0 0) (mkVector3 0 0 0)
                            (mkVector3 0.005 0 0) 0.2 0]
                         (mkVector3 0 0 0) 0)) 0%nat _ eq_refl).
Defined.

(** ** The generators: closed form and bounding box *)

(** X2. For draws [u], [v], [w] in [0, 1) and a positive radius, the point
    of [getRandomSpherePoint] has height [z = r * (2 v - 1)] and lies on
    the circle of radius [r * sqrt (1 - (2 v - 1)^2)] around the axis at
    the angle [2 PI u], where [r = cbrt w * radius]; it lies strictly
    inside the ball. *)
Theorem getRandomSpherePoint_closed_form (radius : R) (g : RandomSource) :
  0 < radius -> unit_draws g ->
  let u := draws g (cursor g) in
  let v := draws g (S (cursor g)) in
  let w := draws g (S (S (cursor g))) in
  let r := Math.cbrt w * radius in
  let pt := fst (getRandomSpherePoint radius g) in
  z pt = r * (2 * v - 1)
  /\ x pt = r * sqrt (1 - (2 * v - 1) * (2 * v - 1)) * cos (2 * PI * u)
  /\ y pt = r * sqrt (1 - (2 * v - 1) * (2 * v - 1)) * sin (2 * PI * u)
  /\ length pt < radius.
Proof.
  intros Hr Hg u v w r pt.
  destruct (Hg (S (cursor g))) as [Hv0 Hv1]. fold v in Hv0, Hv1.
  destruct (Hg (S (S (cursor g)))) as [Hw0 Hw1]. fold w in Hw0, Hw1.
  assert (-1 <= 2 * v - 1 <= 1) as Hx by lra.
  assert (length pt < radius) as Hlen.
  { unfold pt. rewrite sphere_point_norm by (assumption || lra).
    pose proof (cbrt_lt_1 w (conj Hw0 Hw1)). fold w. nra. }
  split; [| split; [| split; [| exact Hlen]]];
    unfold pt, getRandomSpherePoint, random; cbn [fst x y z draws cursor];
    fold u v w; rewrite ?(cos_acos _ Hx), ?(sin_acos _ Hx);
    unfold Rsqr; reflexivity.
Qed.

Lemma getRandomSpherePoint_closed_form_witness :
  z (fst (getRandomSpherePoint 14 (constant_source (1 / 8))))
  = Math.cbrt (1 / 8) * 14 * (2 * (1 / 8) - 1).
Proof.
  assert (unit_draws (constant_source (1 / 8))) as Hg
    by (intros n; simpl; lra).
  assert (0 < 14) as Hr by lra.
  exact (proj1 (getRandomSpherePoint_closed_form 14 _ Hr Hg)).
Defined.

Lemma tree_point_in_box (t maxRadius height jitter spirals : R)
  (g : RandomSource) :
  0 <= t <= 1 -> 0 <= maxRadius -> 0 <= height -> 0 <= jitter ->
  unit_draws g ->
  let pt := fst (getTreeSpiralPoint t maxRadius height spirals jitter g) in
  Rabs (x pt) <= maxRadius * (1 - t) + jitter / 2
  /\ Rabs (y pt) <= height / 2 + jitter / 2
  /\ Rabs (z pt) <= maxRadius * (1 - t) + jitter / 2.
Proof.
  intros Ht HR HH Hj Hg pt.
  unfold pt, getTreeSpiralPoint, random. cbn [fst x y z draws cursor].
  destruct (Hg (cursor g)), (Hg (S (cursor g))), (Hg (S (S (cursor g)))).
  pose proof (COS_bound (t * PI * 2 * spirals)).
  pose proof (SIN_bound (t * PI * 2 * spirals)).
  assert (0 <= maxRadius * (1 - t)) by nra.
  repeat split; apply Rabs_le; split; nra.
Qed.

(** X3. For [t] in [0, 1], non-negative radius, height and jitter and draws
    in [0, 1), the point of [getTreeSpiralPoint] lies in the cone's
    bounding box grown by half the jitter: [|x|] and [|z|] are at most
    [maxRadius * (1 - t) + jitter / 2] and [|y|] at most
    [height / 2 + jitter / 2]. *)
Theorem getTreeSpiralPoint_in_box (t maxRadius height jitter spirals : R)
  (g : RandomSource) :
  0 <= t <= 1 -> 0 <= maxRadius -> 0 <= height -> 0 <= jitter ->
  unit_draws g ->
  let pt := fst (getTreeSpiralPoint t maxRadius height spirals jitter g) in
  Rabs (x pt) <= maxRadius * (1 - t) + jitter / 2
  /\ Rabs (y pt) <= height / 2 + jitter / 2
  /\ Rabs (z pt) <= maxRadius * (1 - t) + jitter / 2.
Proof.
  apply tree_point_in_box.
Qed.

Lemma getTreeSpiralPoint_in_box_witness :
  Rabs (y (fst (getTreeSpiralPoint (1 / 2) 6 14 15 0.6
                  (constant_source (1 / 4))))) <= 14 / 2 + 0.6 / 2.
Proof.
  assert (unit_draws (constant_source (1 / 4))) as Hg
    by (intros n; simpl; lra).
  assert (0 <= 1 / 2 <= 1) as Ht by lra.
  assert (0 <= 6) as HR by lra.
  assert (0 <= 14) as HH by lra.
  assert (0 <= 0.6) as Hj by lra.
  exact (proj1 (proj2 (getTreeSpiralPoint_in_box (1 / 2) 6 14 0.6 15 _
                         Ht HR HH Hj Hg))).
Defined.

(** ** [normalize] on a proper range *)

(** X1. For [min < max], [normalize] maps [min] to 0 and [max] to 1, is
    strictly increasing in the value, and maps the values of
    [[min, max]] into [[0, 1]]. *)
Theorem normalize_range (max min : R) :
  min < max ->
  normalize min max min = Normal (JS.Fin 0)
  /\ normalize max max min = Normal (JS.Fin 1)
  /\ (forall a b, a < b ->
        exists ra rb, normalize a max min = Normal (JS.Fin ra)
                      /\ normalize b max min = Normal (JS.Fin rb)
                      /\ ra < rb)
  /\ (forall v, min <= v <= max ->
        exists r, normalize v max min = Normal (JS.Fin r) /\ 0 <= r <= 1).
Proof.
  intros Hlt.
  assert (forall v, normalize v max min
                    = Normal (JS.Fin ((v - min) / (max - min)))) as Hq.
  { intros v. unfold normalize. rewrite div_nonzero; [reflexivity | lra]. }
  assert (0 < / (max - min)) as Hinv by (apply Rinv_0_lt_compat; lra).
  split; [rewrite Hq; do 2 f_equal; field; lra |].
  split; [rewrite Hq; do 2 f_equal; field; lra |].
  split.
  - intros a b Hab. exists ((a - min) / (max - min)), ((b - min) / (max - min)).
    rewrite !Hq. repeat split. unfold Rdiv. nra.
  - intros v Hv. exists ((v - min) / (max - min)). rewrite Hq.
    split; [reflexivity |]. unfold Rdiv.
    assert ((max - min) * / (max - min) = 1) by (field; lra).
    split; nra.
Qed.

Lemma normalize_range_witness :
  normalize 0 10 0 = Normal (JS.Fin 0) /\ normalize 10 10 0 = Normal (JS.Fin 1).
Proof.
  assert (0 < 10) as H by lra.
  split.
  - exact (proj1 (normalize_range 10 0 H)).
  - exact (proj1 (proj2 (normalize_range 10 0 H))).
Defined.

(** ** [StarTop] *)

Lemma component_le_length (v : Vector3) :
  Rabs (x v) <= length v /\ Rabs (y v) <= length v /\ Rabs (z v) <= length v.
Proof.
  unfold length.
  assert (forall a s, 0 <= s -> a * a <= s -> Rabs a <= sqrt s) as H.
  { intros a s Hs Ha. rewrite <- sqrt_Rsqr_abs.
    apply sqrt_le_1; [apply Rle_0_sqr | exact Hs | exact Ha]. }
  repeat split; apply H; nra.
Qed.

(** X8. For draws in [0, 1) the scatter position of the star is at a height
    between 5 and 17 and its tree position is [(0, 7.8, 0)], so for a
    progress in [0, 1] the star is never below 4.9 nor above 17.1, and
    at progress 1 it hovers within 0.1 of the tree top. *)
Theorem StarTop_stays_above_floor (g : RandomSource) (time p : R) :
  unit_draws g -> 0 <= p <= 1 ->
  let scatterPos := fst (fst (StarTop_positions g)) in
  let treePos := snd (fst (StarTop_positions g)) in
  5 <= y scatterPos <= 17
  /\ treePos = mkVector3 0 7.8 0
  /\ 4.9 <= y (StarTop_position time p scatterPos treePos) <= 17.1
  /\ StarTop_position time 1 scatterPos treePos
     = mkVector3 0 (7.8 + sin (time * 2) * 0.1) 0.
Proof.
  intros Hg Hp scatterPos treePos.
  assert (0 <= 12) as H12 by lra.
  pose proof (sphere_point_inside 12 g H12 Hg) as Hin.
  destruct (component_le_length (fst (getRandomSpherePoint 12 g)))
    as (_ & Hy & _).
  pose proof (Rabs_pos (y (fst (getRandomSpherePoint 12 g)))) as Habs.
  assert (y scatterPos = Rabs (y (fst (getRandomSpherePoint 12 g))) + 5)
    as Hsy by reflexivity.
  assert (treePos = mkVector3 0 7.8 0) as Htp by reflexivity.
  pose proof (SIN_bound (time * 2)) as Hsin.
  split; [lra |]. split; [exact Htp |]. rewrite Htp.
  unfold StarTop_position, lerpVectors. cbn [x y z].
  split; [split; nra |]. f_equal; ring.
Qed.

Lemma StarTop_stays_above_floor_witness :
  4.9 <= y (StarTop_position 0 (1 / 2)
              (fst (fst (StarTop_positions (constant_source (1 / 4)))))
              (snd (fst (StarTop_positions (constant_source (1 / 4)))))).
Proof.
  assert (unit_draws (constant_source (1 / 4))) as Hg
    by (intros n; simpl; lra).
  assert (0 <= 1 / 2 <= 1) as Hp by lra.
  exact (proj1 (proj1 (proj2 (proj2
           (StarTop_stays_above_floor _ 0 (1 / 2) Hg Hp))))).
Defined.

Lemma outline_parity (i : nat) :
  Nat.eqb (Nat.modulo (i + 2) 2) 0 = Nat.eqb (Nat.modulo i 2) 0.
Proof.
  replace (i + 2)%nat with (i + 1 * 2)%nat by lia.
  now rewrite Nat.Div0.mod_add.
Qed.

(** X9. The outline of the star has ten points; the [i]-th is at distance
    0.9 from the centre for even [i] and 0.4 for odd [i]; the first is
    the top [(0, 0.9)]; and the point two further on is the [i]-th
    turned by a fifth of a turn, so the outline is five-fold
    symmetric. *)
Theorem StarTop_outline_symmetric (i : nat) :
  List.length StarTop_outline = 10%nat
  /\ nth_error StarTop_outline 0 = Some (StarTop_outline_point 0)
  /\ StarTop_outline_point 0 = (0, 0.9)
  /\ (let (px, py) := StarTop_outline_point i in
      let r := if Nat.eqb (Nat.modulo i 2) 0 then 0.9 else 0.4 in
      px * px + py * py = r * r)
  /\ (let (px, py) := StarTop_outline_point i in
      StarTop_outline_point (i + 2)
      = (px * cos (2 * PI / 5) + py * sin (2 * PI / 5),
         py * cos (2 * PI / 5) - px * sin (2 * PI / 5))).
Proof.
  split; [reflexivity |]. split; [reflexivity |].
  split.
  { unfold StarTop_outline_point. cbn [Nat.modulo Nat.eqb INR].
    replace (0 * PI / 5) with 0 by lra. rewrite sin_0, cos_0.
    simpl. f_equal; lra. }
  unfold StarTop_outline_point. rewrite outline_parity.
  set (r := if Nat.eqb (Nat.modulo i 2) 0 then 0.9 else 0.4).
  split.
  - pose proof (sin2_cos2 (INR i * PI / 5)) as H. unfold Rsqr in H.
    replace (sin (INR i * PI / 5) * r * (sin (INR i * PI / 5) * r)
             + cos (INR i * PI / 5) * r * (cos (INR i * PI / 5) * r))
      with (r * r * (sin (INR i * PI / 5) * sin (INR i * PI / 5)
                     + cos (INR i * PI / 5) * cos (INR i * PI / 5))) by ring.
    rewrite H. ring.
  - rewrite plus_INR. change (INR 2) with 2.
    replace ((INR i + 2) * PI / 5) with (INR i * PI / 5 + 2 * PI / 5) by field.
    rewrite sin_plus, cos_plus. f_equal; ring.
Qed.

(** X10. The star turns with the clock: after any sequence of frames under a
    constant multiplier its rotation has advanced by 1.5 times the
    multiplier times the time elapsed, however the time is cut into
    frames; its wobble stays within 0.1 and its scale, for a progress in
    [0, 1], between 0.4 and 1. *)
Theorem StarTop_spin_follows_clock (burst rotationY : R) (deltas : list R)
  (time delta p : R) :
  StarTop_spin_frames burst deltas rotationY
  = rotationY + 1.5 * burst * elapsed deltas
  /\ Rabs (snd (fst (StarTop_spin time delta p burst rotationY))) <= 0.1
  /\ (0 <= p <= 1 ->
      0.4 <= snd (StarTop_spin time delta p burst rotationY) <= 1).
Proof.
  split; [| split].
  - revert rotationY. unfold StarTop_spin_frames, elapsed.
    induction deltas as [| d ds IH]; intros rot.
    + simpl. ring.
    + cbn [fold_left fold_right]. rewrite IH.
      unfold StarTop_spin. cbn [fst]. ring.
  - unfold StarTop_spin. cbn [fst snd].
    pose proof (SIN_bound (time * 1.5)). apply Rabs_le. split; nra.
  - intros Hp. unfold StarTop_spin. cbn [snd]. split; nra.
Qed.

Lemma StarTop_spin_follows_clock_witness :
  0.4 <= snd (StarTop_spin 0 (1 / 60) (1 / 2) 2 0) <= 1.
Proof.
  assert (0 <= 1 / 2 <= 1) as Hp by lra.
  exact (proj2 (proj2 (StarTop_spin_follows_clock 2 0 [] 0 (1 / 60) (1 / 2)))
           Hp).
Defined.

(** ** [MagicSpiral] *)

(** X11. For [i < count], a non-negative radius and a positive height, the
    tree position of particle [i] lies on the circle of radius
    [radius * (1 - i / count) + 0.5] around the axis, which is more than
    0.5 and at most [radius + 0.5], at a height in
    [[- height / 2, height / 2)]; particle 0 sits at
    [(radius + 0.5, - height / 2, 0)]. *)
Theorem MagicSpiral_tree_on_cone (count : nat) (radius height : R) (i : nat) :
  (i < count)%nat -> 0 <= radius -> 0 < height ->
  let t := INR i / INR count in
  let pt := MagicSpiral_tree count radius height i in
  x pt * x pt + z pt * z pt
  = (radius * (1 - t) + 0.5) * (radius * (1 - t) + 0.5)
  /\ 0.5 <= radius * (1 - t) + 0.5 <= radius + 0.5
  /\ - height / 2 <= y pt < height / 2
  /\ MagicSpiral_tree count radius height 0
     = mkVector3 (radius + 0.5) (- height / 2) 0.
Proof.
  intros Hi Hr Hh t pt.
  assert (0 < INR count) as Hc by (apply lt_0_INR; lia).
  assert (0 <= INR i) as Hi0 by apply pos_INR.
  assert (INR i < INR count) as Hic by now apply lt_INR.
  assert (0 <= t < 1) as Ht.
  { unfold t. split.
    - apply Rmult_le_pos; [exact Hi0 | left; now apply Rinv_0_lt_compat].
    - apply Rmult_lt_reg_r with (r := INR count); [exact Hc |].
      unfold Rdiv. rewrite Rmult_assoc, Rinv_l by lra. lra. }
  assert (MagicSpiral_tree count radius height 0
          = mkVector3 (radius + 0.5) (- height / 2) 0) as Hfirst.
  { unfold MagicSpiral_tree. cbn [INR].
    replace (0 / INR count) with 0 by (unfold Rdiv; ring).
    replace (0 * PI * 2 * 4) with 0 by ring. rewrite cos_0, sin_0.
    f_equal; lra. }
  split; [| split; [| split; [| exact Hfirst]]];
    unfold pt, MagicSpiral_tree; cbn [x y z]; fold t.
  - pose proof (sin2_cos2 (t * PI * 2 * 4)) as H. unfold Rsqr in H.
    set (c := radius * (1 - t) + 0.5).
    replace (cos (t * PI * 2 * 4) * c * (cos (t * PI * 2 * 4) * c)
             + sin (t * PI * 2 * 4) * c * (sin (t * PI * 2 * 4) * c))
      with (c * c * (sin (t * PI * 2 * 4) * sin (t * PI * 2 * 4)
                     + cos (t * PI * 2 * 4) * cos (t * PI * 2 * 4))) by ring.
    rewrite H. ring.
  - split; nra.
  - split; nra.
Qed.

Lemma MagicSpiral_tree_on_cone_witness :
  - 15 / 2 <= y (MagicSpiral_tree 120 7.0 15 60) < 15 / 2.
Proof.
  assert (60 < 120)%nat as Hi by lia.
  assert (0 <= 7.0) as Hr by lra.
  assert (0 < 15) as Hh by lra.
  exact (proj1 (proj2 (proj2 (MagicSpiral_tree_on_cone 120 7.0 15 60
                                Hi Hr Hh)))).
Defined.

(** X12. For draws in [0, 1), a particle of the spiral starts at its tree
    position, is scattered within 20 of the origin and gets a size in
    [[0.5, 1)]; the pass takes four draws. *)
Theorem MagicSpiral_particle_bounds (count : nat) (radius height : R)
  (i : nat) (g : RandomSource) :
  unit_draws g ->
  let out := fst (MagicSpiral_particle count radius height i g) in
  let tree := fst (fst (fst out)) in
  let scatter := snd (fst (fst out)) in
  let pos := snd (fst out) in
  let sz := snd out in
  pos = tree
  /\ tree = MagicSpiral_tree count radius height i
  /\ length scatter <= 20
  /\ 0.5 <= sz < 1
  /\ snd (MagicSpiral_particle count radius height i g)
     = mkRandomSource (draws g) (4 + cursor g).
Proof.
  intros Hg out tree scatter pos sz.
  split; [reflexivity |]. split; [reflexivity |].
  split; [| split; [| reflexivity]].
  - assert (0 <= 20) as H20 by lra.
    exact (sphere_point_inside 20 g H20 Hg).
  - unfold sz, out, MagicSpiral_particle, getRandomSpherePoint, random.
    cbn [fst snd draws cursor].
    destruct (Hg (S (S (S (cursor g))))). split; lra.
Qed.

Lemma MagicSpiral_particle_bounds_witness :
  length (snd (fst (fst (fst (MagicSpiral_particle 120 7.0 15 3
                                (constant_source (1 / 4))))))) <= 20.
Proof.
  assert (unit_draws (constant_source (1 / 4))) as Hg
    by (intros n; simpl; lra).
  exact (proj1 (proj2 (proj2 (MagicSpiral_particle_bounds 120 7.0 15 3 _ Hg)))).
Defined.

(** ** [Foliage] *)

Lemma Foliage_height_range (u : R) :
  0 <= u < 1 -> u <= Foliage_height u < 1.
Proof.
  intros [Hu0 Hu1]. unfold Foliage_height.
  destruct (Req_dec_T u 0) as [-> | Hne]; [lra |].
  assert (0 < u) as Hpos by lra.
  assert (ln u < 0) as Hln.
  { rewrite <- ln_1. apply ln_increasing; lra. }
  unfold Rpower. split.
  - rewrite <- (exp_ln u Hpos) at 1.
    destruct (Req_dec (ln u) (0.8 * ln u)) as [Heq | Hneq]; [lra |].
    left. apply exp_increasing. lra.
  - rewrite <- exp_0. apply exp_increasing. lra.
Qed.

(** X13. For draws in [0, 1), a foliage particle is placed at a height
    parameter [t = u^0.8] with [u <= t < 1], so higher than the draw
    itself; its tree position lies in the box [|x|, |z| <= 6.3],
    [|y| <= 7.3], its scatter position within 15 of the origin, and its
    [aRandom] in [0, 1); the pass takes eight draws. *)
Theorem Foliage_particle_bounds (g : RandomSource) :
  unit_draws g ->
  let out := fst (Foliage_particle g) in
  let treeP := fst (fst out) in
  let scatterP := snd (fst out) in
  let rnd := snd out in
  let t := Foliage_height (draws g (cursor g)) in
  draws g (cursor g) <= t < 1
  /\ treeP = fst (getTreeSpiralPoint t 6 14 15 0.6
                    (mkRandomSource (draws g) (S (cursor g))))
  /\ Rabs (x treeP) <= 6.3 /\ Rabs (y treeP) <= 7.3 /\ Rabs (z treeP) <= 6.3
  /\ length scatterP <= 15
  /\ 0 <= rnd < 1
  /\ snd (Foliage_particle g) = mkRandomSource (draws g) (8 + cursor g).
Proof.
  intros Hg out treeP scatterP rnd t.
  pose proof (Foliage_height_range _ (Hg (cursor g))) as Ht. fold t in Ht.
  destruct (Hg (cursor g)) as [Hu0 Hu1].
  assert (treeP = fst (getTreeSpiralPoint t 6 14 15 0.6
                         (mkRandomSource (draws g) (S (cursor g))))) as Htree
    by reflexivity.
  assert (0 <= t <= 1) as Ht' by lra.
  assert (0 <= 6) as H6 by lra.
  assert (0 <= 14) as H14 by lra.
  assert (0 <= 0.6) as Hj by lra.
  destruct (tree_point_in_box t 6 14 0.6 15 _ Ht' H6 H14 Hj
              (unit_draws_source g (S (cursor g)) Hg)) as (Hx & Hy & Hz).
  rewrite <- Htree in Hx, Hy, Hz.
  split; [exact Ht |]. split; [exact Htree |].
  split; [lra |]. split; [lra |]. split; [lra |].
  split; [| split; [| reflexivity]].
  - assert (0 <= 15) as H15 by lra.
    exact (sphere_point_inside 15 _ H15
             (unit_draws_source g (4 + cursor g) Hg)).
  - exact (Hg (7 + cursor g)%nat).
Qed.

Lemma Foliage_particle_bounds_witness :
  length (snd (fst (fst (Foliage_particle (constant_source (1 / 4)))))) <= 15.
Proof.
  assert (unit_draws (constant_source (1 / 4))) as Hg
    by (intros n; simpl; lra).
  exact (proj1 (proj2 (proj2 (proj2 (proj2 (proj2
           (Foliage_particle_bounds _ Hg))))))).
Defined.

(** ** The oscillations *)

(** X14. For a progress in [0, 1], every component of a subsystem's
    oscillation is bounded by an amplitude that tightens as the tree
    forms: from 0.5 to 0.1 for the foliage, from 0.2 to 0.05 for the
    ornaments, 0.1 throughout for the star, and [0.1 * p] for the magic
    spiral, whose particles therefore sit exactly on their scatter
    positions at progress 0. *)
Theorem oscillation_amplitude (s : Subsystem) (e : Entity) (f : Frame) :
  0 <= p f <= 1 ->
  within (amplitude s (p f)) (oscillation s e f)
  /\ (p f = 0 -> position MagicSpiral e f = scatterPos e).
Proof.
  intros [Hp0 Hp1]. split.
  - assert (forall a, 0 <= a -> Rabs 0 <= a) as H0
      by (intros a Ha; rewrite Rabs_R0; exact Ha).
    destruct s; unfold within, oscillation, amplitude; cbn [x y z];
      repeat split; try (apply H0; nra).
    + pose proof (SIN_bound (time f * 0.5 + aRandom e * 5.0)).
      pose proof (SIN_bound (time f * 1.5 + aRandom e * 10.0)).
      unfold mix. apply Rabs_le. split; nra.
    + pose proof (SIN_bound (time f * 1.0 + INR (index e) * 0.2)).
      apply Rabs_le. split; nra.
    + pose proof (COS_bound (time f * 0.3 + phase e)).
      apply Rabs_le. split; nra.
    + pose proof (SIN_bound (time f * 0.5 + phase e)).
      apply Rabs_le. split; nra.
    + pose proof (SIN_bound (time f * 2)).
      apply Rabs_le. split; nra.
  - intros Hp. unfold position, MagicSpiral_setXYZ. rewrite Hp.
    destruct e as [[sx sy sz] tp ph ar i]. cbn [scatterPos treePos index x y z].
    f_equal; ring.
Qed.

Lemma oscillation_amplitude_witness :
  within (amplitude Foliage 1)
         (oscillation Foliage cookie (mkFrame 1 0 0 (mkVector3 0 0 33)
                                        (mkVector3 0 0 (-1)))).
Proof.
  assert (0 <= 1 <= 1) as Hp by lra.
  exact (proj1 (oscillation_amplitude Foliage cookie
                  (mkFrame 1 0 0 (mkVector3 0 0 33) (mkVector3 0 0 (-1))) Hp)).
Defined.

(** ** [GingerbreadMan] *)

(** X15. The scale of the gingerbread man: while it is not clicked the scale
    is [0.6 p + 0.3 (1 - p)] whatever the highlight factor; while it is
    clicked the scale is that value blended toward 0.15 by [m]; for [p]
    and [m] in [0, 1] it stays between 0.15 and 0.6. *)
Theorem GingerbreadMan_scale_range (active : bool) (p m : R) :
  GingerbreadMan_scale false p m = 0.6 * p + 0.3 * (1 - p)
  /\ GingerbreadMan_scale true p m
     = (1 - m) * (0.6 * p + 0.3 * (1 - p)) + m * 0.15
  /\ (0 <= p <= 1 -> 0 <= m <= 1 ->
      0.15 <= GingerbreadMan_scale active p m <= 0.6).
Proof.
  unfold GingerbreadMan_scale, lerp.
  split; [ring |]. split; [reflexivity |].
  intros Hp Hm. destruct active; split; nra.
Qed.

Lemma GingerbreadMan_scale_range_witness :
  0.15 <= GingerbreadMan_scale true (1 / 2) (1 / 2) <= 0.6.
Proof.
  assert (0 <= 1 / 2 <= 1) as H by lra.
  exact (proj2 (proj2 (GingerbreadMan_scale_range true (1 / 2) (1 / 2))) H H).
Defined.

(** X16. The gingerbread man hides on the circle of radius 3.2 around the
    trunk at height -2.5; fully highlighted ([m = 1]) it is at the
    camera position plus five times the view direction, for a unit
    direction exactly 5 away from the camera; not highlighted ([m = 0])
    it is at the blend of its two positions. *)
Theorem GingerbreadMan_places (p : R) (scatterPos treePos : Vector3)
  (cameraPos cameraDir : Vector3) :
  x GingerbreadMan_treePos * x GingerbreadMan_treePos
  + z GingerbreadMan_treePos * z GingerbreadMan_treePos = 3.2 * 3.2
  /\ y GingerbreadMan_treePos = -2.5
  /\ GingerbreadMan_position p 1 scatterPos treePos cameraPos cameraDir
     = add cameraPos (multiplyScalar 5 cameraDir)
  /\ GingerbreadMan_position p 0 scatterPos treePos cameraPos cameraDir
     = lerpVectors scatterPos treePos p
  /\ (length cameraDir = 1 ->
      length (add (GingerbreadMan_position p 1 scatterPos treePos
                     cameraPos cameraDir)
                  (multiplyScalar (-1) cameraPos)) = 5).
Proof.
  assert (GingerbreadMan_position p 1 scatterPos treePos cameraPos cameraDir
          = add cameraPos (multiplyScalar 5 cameraDir)) as Hfront.
  { unfold GingerbreadMan_position, lerpVectors, add, multiplyScalar.
    cbn [x y z]. f_equal; ring. }
  split; [| split; [reflexivity | split; [exact Hfront | split]]].
  - unfold GingerbreadMan_treePos. cbn [x z].
    pose proof (sin2_cos2 (PI * 0.25)) as H. unfold Rsqr in H.
    replace (cos (PI * 0.25) * 3.2 * (cos (PI * 0.25) * 3.2)
             + sin (PI * 0.25) * 3.2 * (sin (PI * 0.25) * 3.2))
      with (3.2 * 3.2 * (sin (PI * 0.25) * sin (PI * 0.25)
                         + cos (PI * 0.25) * cos (PI * 0.25))) by ring.
    rewrite H. ring.
  - unfold GingerbreadMan_position, lerpVectors, add, multiplyScalar.
    cbn [x y z]. f_equal; ring.
  - intros Hdir. rewrite Hfront.
    replace (add (add cameraPos (multiplyScalar 5 cameraDir))
                 (multiplyScalar (-1) cameraPos))
      with (multiplyScalar 5 cameraDir)
      by (unfold add, multiplyScalar; cbn [x y z]; f_equal; ring).
    rewrite length_multiplyScalar, Hdir, Rabs_pos_eq by lra. ring.
Qed.

Lemma GingerbreadMan_places_witness :
  length (add (GingerbreadMan_position 0 1 (mkVector3 0 0 0)
                 GingerbreadMan_treePos (mkVector3 0 0 33) (mkVector3 0 0 1))
              (multiplyScalar (-1) (mkVector3 0 0 33))) = 5.
Proof.
  assert (length (mkVector3 0 0 1) = 1) as Hdir
    by (apply length_on_axis; lra).
  exact (proj2 (proj2 (proj2 (proj2
           (GingerbreadMan_places 0 (mkVector3 0 0 0) GingerbreadMan_treePos
              (mkVector3 0 0 33) (mkVector3 0 0 1))))) Hdir).
Defined.

(** ** The camera over frames *)

Lemma targetDist_bounds (ts : TreeState) : 5 <= targetDist ts <= 33.
Proof.
  destruct ts; unfold targetDist; simpl; lra.
Qed.

(** One frame for a non-negative delta and a camera more than 0.1 away
    from the origin: either the camera is within 0.1 of its target
    distance and stays, or it is rescaled by a positive factor to the
    distance [d + k * (D - d)] with [k = 2.5 * min(delta, 0.1)]. *)
Lemma camera_frame (ts : TreeState) (pos : Vector3) (delta : R) :
  0 <= delta -> 0.1 < length pos ->
  let d := length pos in
  let D := targetDist ts in
  let k := 2.5 * Rmin delta 0.1 in
  0 <= k <= 0.25
  /\ ((Rabs (D - d) <= 0.1 /\ Experience_camera ts pos delta = pos)
      \/ (0.1 < Rabs (D - d)
          /\ 0 < (d + k * (D - d)) / d
          /\ Experience_camera ts pos delta
             = multiplyScalar ((d + k * (D - d)) / d) pos
          /\ length (Experience_camera ts pos delta) = d + k * (D - d))).
Proof.
  intros Hdelta Hd d D k.
  fold d in Hd.
  pose proof (targetDist_bounds ts) as HD. fold D in HD.
  assert (0 <= k <= 0.25) as Hk.
  { unfold k. unfold Rmin. destruct (Rle_dec delta 0.1); split; lra. }
  split; [exact Hk |].
  assert (Experience_camera ts pos delta =
          if Rlt_dec 0.1 (Rabs (D - d)) then
            if Rlt_dec 0.1 (d + (D - d) * Rmin delta 0.1 * 2.5)
            then setLength (d + (D - d) * Rmin delta 0.1 * 2.5) pos else pos
          else pos) as Hcam by reflexivity.
  replace (d + (D - d) * Rmin delta 0.1 * 2.5) with (d + k * (D - d)) in Hcam
    by (unfold k; ring).
  assert (0.1 < d + k * (D - d)) as Hnew by nra.
  assert (0 < (d + k * (D - d)) / d) as Hfac
    by (apply Rdiv_lt_0_compat; lra).
  rewrite Hcam.
  destruct (Rlt_dec 0.1 (Rabs (D - d))) as [Hfar | Hnear]; [right | left].
  - destruct (Rlt_dec 0.1 (d + k * (D - d))) as [_ | Hno]; [| contradiction].
    assert (d <> 0) as Hd0 by lra.
    rewrite setLength_scales by exact Hd0. fold d.
    repeat split; try assumption.
    rewrite length_multiplyScalar. fold d.
    rewrite Rabs_pos_eq by lra. field. exact Hd0.
  - split; [lra | reflexivity].
Qed.

(** X17. One frame of the camera, for a non-negative delta and a camera more
    than 0.1 away from the origin: the new distance lies between the old
    one and the target distance, so the camera never overshoots; when
    the gap exceeds 0.1 it shrinks by the factor
    [1 - 2.5 * min(delta, 0.1)], which is at least 0.75, so the camera
    stays more than 0.075 short of its target and more than 0.1 away
    from the origin. *)
Theorem camera_approaches_target (ts : TreeState) (pos : Vector3)
  (delta : R) :
  0 <= delta -> 0.1 < length pos ->
  let d := length pos in
  let D := targetDist ts in
  let d' := length (Experience_camera ts pos delta) in
  Rmin d D <= d' <= Rmax d D
  /\ Rabs (D - d') <= Rabs (D - d)
  /\ 0.1 < d'
  /\ (0.1 < Rabs (D - d) ->
      D - d' = (1 - 2.5 * Rmin delta 0.1) * (D - d)
      /\ 0.075 < Rabs (D - d')).
Proof.
  intros Hdelta Hd d D d'.
  destruct (camera_frame ts pos delta Hdelta Hd) as [Hk Hcase].
  fold d D in Hcase. fold d in Hd.
  set (k := 2.5 * Rmin delta 0.1) in *.
  pose proof (targetDist_bounds ts) as HD. fold D in HD.
  assert (Rmin d D <= d /\ d <= Rmax d D) as [Hmin Hmax]
    by (split; [apply Rmin_l | apply Rmax_l]).
  destruct Hcase as [[Hnear Hsame] | (Hfar & _ & _ & Hlen)].
  - unfold d'. rewrite Hsame. fold d.
    repeat split; intros; lra.
  - unfold d'. rewrite Hlen.
    assert (D - (d + k * (D - d)) = (1 - k) * (D - d)) as Hgap by ring.
    rewrite Hgap, Rabs_mult, (Rabs_pos_eq (1 - k)) by lra.
    pose proof (Rabs_pos (D - d)) as Hpos.
    split; [| split; [nra | split; [nra |]]].
    + unfold Rmin, Rmax. destruct (Rle_dec d D); split; nra.
    + intros _. split; [reflexivity | nra].
Qed.

Lemma camera_approaches_target_witness :
  0.1 < length (Experience_camera SCATTERED (mkVector3 0 0 33) (1 / 60)).
Proof.
  assert (0 <= 1 / 60) as Hdelta by lra.
  assert (0.1 < length (mkVector3 0 0 33)) as Hd
    by (rewrite length_on_axis; lra).
  exact (proj1 (proj2 (proj2 (camera_approaches_target SCATTERED
                                (mkVector3 0 0 33) (1 / 60) Hdelta Hd)))).
Defined.

(** ** Teardown of the burst, and the auto-rotation in step with it *)

Module BurstTeardown.

Import Burst.
Local Open Scope Z_scope.

(** X19. Unmounting a component in any reachable state leaves no timeout
    pending, so however much time passes afterwards no callback writes
    to [burstRef] again. *)
Theorem unmount_cancels_timer (c : Component) (ms : Z) :
  reachable c ->
  timers (unmount c) = []
  /\ burstRef (elapse ms (unmount c)) = burstRef c
  /\ timers (elapse ms (unmount c)) = [].
Proof.
  intros Hreach.
  pose proof (BurstProofs.reachable_invariant c Hreach) as Hinv.
  assert (timers (unmount c) = [] /\ burstRef (unmount c) = burstRef c)
    as [Htm Hb].
  { unfold invariant in Hinv. unfold unmount, runCleanup.
    destruct c as [ts b tm cl nw nid]. cbn [timers cleanup burstRef] in *.
    destruct tm as [| t [| t' tm]]; [| | contradiction].
    - destruct cl; split; reflexivity.
    - destruct Hinv as (_ & -> & _). unfold clearTimeout.
      cbn [timers burstRef filter]. rewrite Nat.eqb_refl. split; reflexivity. }
  split; [exact Htm |].
  rewrite (BurstProofs.elapse_idle ms _ Htm). cbn [burstRef timers].
  split; [exact Hb | reflexivity].
Qed.

Lemma unmount_cancels_timer_witness :
  burstRef (elapse 5000 (unmount (render SCATTERED (mount TREE_SHAPE))))
  = burstRef (render SCATTERED (mount TREE_SHAPE)).
Proof.
  exact (proj1 (proj2 (unmount_cancels_timer
                         (render SCATTERED (mount TREE_SHAPE)) 5000
                         (reach_render SCATTERED _ (reach_mount TREE_SHAPE))))).
Defined.

End BurstTeardown.

Module AutoRotateProofs.

Local Open Scope Z_scope.

Lemma in_step_mount (ts : TreeState) :
  AutoRotate.in_step (Burst.mount ts) (AutoRotate.mount ts).
Proof.
  destruct ts; unfold AutoRotate.in_step; cbn.
  - repeat split. left. split; [lra | reflexivity].
  - repeat split. right. split; [lra | reflexivity].
Qed.

Lemma in_step_commit (ts : TreeState) (b : Burst.Component)
  (c : AutoRotate.Component) :
  AutoRotate.in_step b c ->
  AutoRotate.in_step (Burst.commit ts b) (AutoRotate.commit ts c).
Proof.
  destruct b as [bts bb btm bcl bnw bid], c as [cts cc ctm ccl cnw cid].
  unfold AutoRotate.in_step. cbn.
  intros (-> & -> & -> & -> & -> & Hspeed).
  assert (exists v, cc = Some v) as [v ->]
    by (destruct Hspeed as [[_ ->] | [_ ->]]; eexists; reflexivity).
  unfold Burst.commit, AutoRotate.commit, Burst.runCleanup,
    AutoRotate.runCleanup. cbn.
  destruct ccl as [timer |]; destruct ts; cbn; repeat split;
    try (left; split; [lra | reflexivity]);
    try (right; split; [lra | reflexivity]).
Qed.

Lemma in_step_render (ts : TreeState) (b : Burst.Component)
  (c : AutoRotate.Component) :
  AutoRotate.in_step b c ->
  AutoRotate.in_step (Burst.render ts b) (AutoRotate.render ts c).
Proof.
  intros H. pose proof H as (Hts & _).
  unfold Burst.render, AutoRotate.render. rewrite Hts.
  destruct (TreeState_eqb ts (AutoRotate.treeState c)); [exact H |].
  now apply in_step_commit.
Qed.

Lemma in_step_elapse (ms : Z) (b : Burst.Component)
  (c : AutoRotate.Component) :
  AutoRotate.in_step b c ->
  AutoRotate.in_step (Burst.elapse ms b) (AutoRotate.elapse ms c).
Proof.
  destruct b as [bts bb btm bcl bnw bid], c as [cts cc ctm ccl cnw cid].
  unfold AutoRotate.in_step. cbn.
  intros (-> & -> & -> & -> & -> & Hspeed).
  unfold Burst.elapse, AutoRotate.elapse. cbn.
  repeat split.
  destruct (filter (fun t => Burst.due t <=? cnw + ms) ctm).
  - exact Hspeed.
  - right. split; [lra |].
    destruct Hspeed as [[_ ->] | [_ ->]]; reflexivity.
Qed.

(** X20. The auto-rotation of the camera runs in step with the burst of the
    ornaments and the star: mounted in the same mode and taken through
    the same renders and lapses of time, the auto-rotate speed is 2.0
    exactly while their multiplier is 2 and 0.3 while it is 1, with the
    same timeout pending. *)
Theorem autoRotate_in_step_with_burst (ts : TreeState)
  (events : list Burst.Event) :
  let b := fold_left Burst.step events (Burst.mount ts) in
  let c := fold_left AutoRotate.step events (AutoRotate.mount ts) in
  AutoRotate.timers c = Burst.timers b
  /\ (Burst.multiplier b = 2%R /\ AutoRotate.controls c = Some 2.0%R
      \/ Burst.multiplier b = 1%R /\ AutoRotate.controls c = Some 0.3%R).
Proof.
  intros b c.
  assert (AutoRotate.in_step b c) as H.
  { unfold b, c. generalize (in_step_mount ts).
    generalize (Burst.mount ts) (AutoRotate.mount ts).
    induction events as [| e events IH]; intros b0 c0 H0.
    - exact H0.
    - cbn [fold_left]. apply IH.
      destruct e as [ts' | ms]; cbn [Burst.step AutoRotate.step].
      + now apply in_step_render.
      + now apply in_step_elapse. }
  destruct H as (_ & Htm & _ & _ & _ & Hspeed).
  split; [now symmetry | exact Hspeed].
Qed.

End AutoRotateProofs.

(** ** The fragment shaders *)

Lemma glsl_pow_unit (b e : R) : 0 <= b <= 1 -> 0 < e -> 0 <= GLSL.pow b e <= 1.
Proof.
  intros [Hb0 Hb1] He. unfold GLSL.pow.
  destruct (Req_dec_T b 0) as [_ | Hne]; [lra |].
  unfold Rpower. split; [left; apply exp_pos |].
  assert (ln b <= 0) as Hln.
  { destruct Hb1 as [Hlt | ->]; [| rewrite ln_1; lra].
    left. rewrite <- ln_1. apply ln_increasing; lra. }
  destruct (Req_dec (e * ln b) 0) as [-> | Hnz]; [rewrite exp_0; lra |].
  left. rewrite <- exp_0. apply exp_increasing. nra.
Qed.

Lemma glsl_pow_square (b : R) : 0 <= b -> GLSL.pow b 2.0 = b * b.
Proof.
  intros Hb. unfold GLSL.pow.
  destruct (Req_dec_T b 0) as [-> | Hne]; [ring |].
  replace 2.0 with (1 + 1) by lra.
  rewrite Rpower_plus, Rpower_1 by lra. reflexivity.
Qed.

Lemma smoothstep_unit (e0 e1 v : R) : 0 <= GLSL.smoothstep e0 e1 v <= 1.
Proof.
  unfold GLSL.smoothstep, GLSL.clamp.
  set (t := Rmin (Rmax ((v - e0) / (e1 - e0)) 0) 1).
  assert (0 <= t <= 1) as Ht.
  { unfold t. split.
    - apply Rmin_glb; [apply Rmax_r | lra].
    - apply Rmin_r. }
  assert (0 <= t * t) as Hsq by nra.
  assert (0 <= (1 - t) * (1 - t)) as Hsq' by nra.
  assert (1 - t * t * (3 - 2 * t) = (1 - t) * (1 - t) * (1 + 2 * t)) as Heq
    by ring.
  assert (0 <= (1 - t) * (1 - t) * (1 + 2 * t))
    by (apply Rmult_le_pos; lra).
  split; [apply Rmult_le_pos; lra | lra].
Qed.

(** X21. A fragment of a spiral particle is drawn exactly when it lies in
    the disc of radius 0.5 around the centre of the point; its colour is
    the constant (2, 2, 2) and its alpha is [0.6 * (1 - 2 r)^2] for its
    distance [r] from the centre: 0.6 at the centre, 0 on the rim, and
    never outside [0, 0.6]. *)
Theorem MagicSpiral_fragment_glow (cx cy : R) :
  let r := GLSL.length2 (cx - 0.5) (cy - 0.5) in
  (0.5 < r -> MagicSpiral_fragment cx cy = None)
  /\ (r <= 0.5 ->
      MagicSpiral_fragment cx cy
      = Some (mkVector3 2.0 2.0 2.0, (1 - 2 * r) * (1 - 2 * r) * 0.6)
      /\ 0 <= (1 - 2 * r) * (1 - 2 * r) * 0.6 <= 0.6)
  /\ MagicSpiral_fragment 0.5 0.5 = Some (mkVector3 2.0 2.0 2.0, 0.6).
Proof.
  intros r.
  assert (0 <= r) as Hr0 by apply sqrt_pos.
  assert (forall a b, GLSL.length2 a b <= 0.5 ->
            (if Rlt_dec 0.5 (GLSL.length2 a b) then None
             else Some (mkVector3 2.0 2.0 2.0,
                        GLSL.pow (1.0 - GLSL.length2 a b * 2.0) 2.0 * 0.6))
            = Some (mkVector3 2.0 2.0 2.0,
                    (1 - 2 * GLSL.length2 a b) * (1 - 2 * GLSL.length2 a b)
                    * 0.6)) as Hin.
  { intros a b Hle.
    destruct (Rlt_dec 0.5 (GLSL.length2 a b)) as [Hlt | _]; [lra |].
    replace (1.0 - GLSL.length2 a b * 2.0) with (1 - 2 * GLSL.length2 a b)
      by lra.
    rewrite glsl_pow_square by lra. reflexivity. }
  split; [| split].
  - intros Hout. unfold MagicSpiral_fragment. fold r.
    destruct (Rlt_dec 0.5 r); [reflexivity | contradiction].
  - intros Hle. split; [apply Hin; exact Hle |]. split; nra.
  - unfold MagicSpiral_fragment.
    assert (GLSL.length2 (0.5 - 0.5) (0.5 - 0.5) = 0) as H0.
    { unfold GLSL.length2.
      replace ((0.5 - 0.5) * (0.5 - 0.5) + (0.5 - 0.5) * (0.5 - 0.5))
        with 0 by ring.
      apply sqrt_0. }
    rewrite Hin by (rewrite H0; lra). rewrite H0. do 2 f_equal. lra.
Qed.

Lemma MagicSpiral_fragment_glow_witness :
  MagicSpiral_fragment 2 0.5 = None.
Proof.
  assert (0.5 < GLSL.length2 (2 - 0.5) (0.5 - 0.5)) as H.
  { unfold GLSL.length2.
    replace ((2 - 0.5) * (2 - 0.5) + (0.5 - 0.5) * (0.5 - 0.5))
      with (Rsqr 1.5) by (unfold Rsqr; lra).
    rewrite sqrt_Rsqr; lra. }
  exact (proj1 (MagicSpiral_fragment_glow 2 0.5) H).
Defined.

(** X22. A fragment of a foliage particle is discarded outside the disc of
    radius 0.5; inside, its colour lies channel by channel between twice
    the emerald core and twice the gold rim (red in [0, 2], green in
    [0.8, 1.6], blue in [0.3, 0.4]) and its alpha is the [vAlpha] of the
    vertex, which the vertex shader keeps within [0.6, 1]. *)
Theorem Foliage_fragment_colour (cx cy uTime aRandom : R) :
  let ll := GLSL.length2 (cx - 0.5) (cy - 0.5) in
  let vAlpha := Foliage_vAlpha uTime aRandom in
  0.6 <= vAlpha <= 1
  /\ (0.5 < ll -> Foliage_fragment cx cy vAlpha = None)
  /\ (ll <= 0.5 ->
      exists colour, Foliage_fragment cx cy vAlpha = Some (colour, vAlpha)
        /\ 0 <= x colour <= 2
        /\ 0.8 <= y colour <= 1.6
        /\ 0.3 <= z colour <= 0.4).
Proof.
  intros ll vAlpha.
  split; [| split].
  - unfold vAlpha, Foliage_vAlpha.
    pose proof (SIN_bound (uTime * 3.0 + aRandom * 10.0)). split; lra.
  - intros Hout. unfold Foliage_fragment. fold ll.
    destruct (Rlt_dec 0.5 ll); [reflexivity | contradiction].
  - intros Hin. unfold Foliage_fragment. fold ll.
    destruct (Rlt_dec 0.5 ll) as [Hlt | _]; [lra |].
    eexists. split; [reflexivity |].
    assert (0 < 3.0) as H3 by lra.
    pose proof (glsl_pow_unit _ 3.0 (smoothstep_unit 0.0 0.5 ll) H3) as Hk.
    set (k := GLSL.pow (GLSL.smoothstep 0.0 0.5 ll) 3.0) in *.
    unfold multiplyScalar, mix3, mix. cbn [x y z].
    repeat split; nra.
Qed.

Lemma Foliage_fragment_colour_witness :
  Foliage_fragment 2 0.5 (Foliage_vAlpha 0 0) = None.
Proof.
  assert (0.5 < GLSL.length2 (2 - 0.5) (0.5 - 0.5)) as H.
  { unfold GLSL.length2.
    replace ((2 - 0.5) * (2 - 0.5) + (0.5 - 0.5) * (0.5 - 0.5))
      with (Rsqr 1.5) by (unfold Rsqr; lra).
    rewrite sqrt_Rsqr; lra. }
  exact (proj1 (proj2 (Foliage_fragment_colour 2 0.5 0 0)) H).
Defined.

(** ** The frame delta, clamped by the camera alone *)

Lemma advance_calls_damp (s : Subsystem) (ts : TreeState) (progress delta : R) :
  advance s ts progress delta = call_damp (damp_args s ts progress delta).
Proof.
  destruct s; reflexivity.
Qed.

Lemma damp_args_delta (s : Subsystem) (ts : TreeState) (progress delta : R) :
  damp_args s ts progress delta
  = mkDampArgs progress (target ts) (dampSpeed s ts) delta.
Proof.
  destruct s, ts; reflexivity.
Qed.

(** C7, as stated, fails: the progress updates do not clamp the frame
    delta.  After a stalled frame of ten seconds [StarTop] hands
    [delta = 10] to [damp], where the camera update computes with
    [min(10, 0.1) = 0.1]; and no bound holds of the delta the
    subsystems hand over. *)
Lemma progress_delta_not_clamped :
  arg_delta (damp_args StarTop TREE_SHAPE 0 10) = 10
  /\ Experience_safeDelta 10 = 0.1
  /\ ~ (exists B, forall s ts progress delta,
          arg_delta (damp_args s ts progress delta) <= B).
Proof.
  split; [reflexivity |].
  split; [unfold Experience_safeDelta, Math.min; apply Rmin_right; lra |].
  intros [B HB].
  specialize (HB StarTop TREE_SHAPE 0 (B + 1)).
  rewrite damp_args_delta in HB. cbn [arg_delta] in HB. lra.
Qed.

(** C7, amended. Only the camera update clamps the frame delta before
    using it: [Experience] computes with [min(delta, 0.1)], which is at
    most 0.1; the progress update of every other subsystem hands the
    frame delta to [damp] unchanged.  Every update is stable all the
    same, however large the delta: a progress in [0, 1] stays in [0, 1]
    and moves toward its target without passing it, and the distance of
    a camera more than 0.1 away from the origin moves toward its target
    distance without passing it. *)
Theorem frame_delta_clamp_and_stability (s : Subsystem) (ts : TreeState)
  (pos : Vector3) (progress delta : R) :
  (Experience_camera ts pos delta
   = Experience_camera ts pos (Experience_safeDelta delta)
   /\ Experience_safeDelta delta <= 0.1)
  /\ (damp_args s ts progress delta
      = mkDampArgs progress (target ts) (dampSpeed s ts) delta
      /\ advance s ts progress delta
         = call_damp (damp_args s ts progress delta))
  /\ (0 <= progress <= 1 -> 0 <= delta ->
      0 <= advance s ts progress delta <= 1
      /\ distance ts (advance s ts progress delta) <= distance ts progress
      /\ (Rmin progress (target ts) <= advance s ts progress delta
          <= Rmax progress (target ts)))
  /\ (0 <= delta -> 0.1 < length pos ->
      Rmin (length pos) (targetDist ts)
      <= length (Experience_camera ts pos delta)
      <= Rmax (length pos) (targetDist ts)).
Proof.
  split; [| split; [| split]].
  - split; [apply Experience_camera_clamps |].
    unfold Experience_safeDelta, Math.min. apply Rmin_r.
  - split; [apply damp_args_delta | apply advance_calls_damp].
  - intros Hp Hdelta.
    rewrite advance_decay by assumption.
    pose proof (dampSpeed_pos s ts) as Hrate.
    assert (0 < exp (- (dampSpeed s ts * delta)) <= 1) as Hq.
    { destruct Hdelta as [Hpos | <-].
      - assert (0 < dampSpeed s ts * delta) as Hk by nra.
        pose proof (decay_range _ Hk). lra.
      - rewrite Rmult_0_r, Ropp_0, exp_0. lra. }
    set (q := exp (- (dampSpeed s ts * delta))) in *.
    unfold distance.
    destruct ts; [change (target SCATTERED) with 0
                 | change (target TREE_SHAPE) with 1].
    + rewrite Rmin_right, Rmax_left by lra.
      replace (0 - (0 + (progress - 0) * q)) with (- (progress * q)) by ring.
      replace (0 - progress) with (- progress) by ring.
      rewrite !Rabs_Ropp, !Rabs_pos_eq by nra.
      repeat split; nra.
    + rewrite Rmin_left, Rmax_right by lra.
      replace (1 - (1 + (progress - 1) * q)) with ((1 - progress) * q) by ring.
      rewrite !Rabs_pos_eq by nra.
      repeat split; nra.
  - intros Hdelta Hd.
    destruct (camera_frame ts pos delta Hdelta Hd) as [Hk Hcase].
    pose proof (targetDist_bounds ts) as HD.
    set (d := length pos) in *. set (D := targetDist ts) in *.
    set (k := 2.5 * Rmin delta 0.1) in *.
    destruct Hcase as [[_ Hsame] | (_ & _ & _ & Hlen)].
    + rewrite Hsame. fold d. split; [apply Rmin_l | apply Rmax_l].
    + rewrite Hlen. unfold Rmin, Rmax. destruct (Rle_dec d D); split; nra.
Qed.

Lemma frame_delta_clamp_and_stability_witness :
  0 <= advance StarTop TREE_SHAPE 0 10 <= 1
  /\ Rmin (length (mkVector3 0 0 33)) (targetDist SCATTERED)
     <= length (Experience_camera SCATTERED (mkVector3 0 0 33) 10)
     <= Rmax (length (mkVector3 0 0 33)) (targetDist SCATTERED).
Proof.
  assert (0 <= 0 <= 1) as Hp by lra.
  assert (0 <= 10) as Hdelta by lra.
  assert (0.1 < length (mkVector3 0 0 33)) as Hd
    by (rewrite length_on_axis; lra).
  pose proof (frame_delta_clamp_and_stability StarTop TREE_SHAPE
                (mkVector3 0 0 33) 0 10) as Hprogress.
  pose proof (frame_delta_clamp_and_stability StarTop SCATTERED
                (mkVector3 0 0 33) 0 10) as Hcamera.
  split.
  - exact (proj1 (proj1 (proj2 (proj2 Hprogress)) Hp Hdelta)).
  - exact (proj2 (proj2 (proj2 Hcamera)) Hdelta Hd).
Defined.
